(** * Machine reservation workflow: [ApiHandler] of [src/handler/api.ts]

    A shallow embedding of the request handler of the machine service and
    the properties of its three operations (reserve, get, start) and of the
    authentication gate and dispatcher in front of them.

    The handler is stateful: it reads and writes the machine table and the
    shared cache and calls two external clients.  It is embedded in a small
    state-and-exception monad over a [World] that holds the table, the cache
    and the chronological trace of every collaborator call, so that "no
    store read", "controller invoked exactly once" and "nothing mutated"
    are statements about the final world. *)

From Stdlib Require Import Ascii.
From stdpp Require Import base option strings list gmap.

(** ** Data model ([database/schema], [handler/model]) *)

(** Modelled from the spec: the enum [MachineStatus] of [database/schema],
    which [api.ts] imports.  The three statuses the workflow uses are named
    in [api.ts]; any further status of the full system is an
    [OTHER_STATUS]. *)
Inductive MachineStatus : Type :=
  | AVAILABLE
  | AWAITING_DROPOFF
  | RUNNING
  | OTHER_STATUS (name : string).

#[global] Instance MachineStatus_eq_dec : EqDecision MachineStatus.
Proof. solve_decision. Defined.

(** Modelled from the spec: the document type [MachineStateDocument] of
    [database/schema]; [currentJobId] is absent ([None]) or a job id. *)
Record MachineStateDocument : Type := mkMachine {
  machineId : string;
  locationId : string;
  status : MachineStatus;
  currentJobId : option string
}.

#[global] Instance MachineStateDocument_eq_dec : EqDecision MachineStateDocument.
Proof. solve_decision. Defined.

(** [machine.status = st] and [machine.currentJobId = job] on a document. *)
Definition set_status (st : MachineStatus) (d : MachineStateDocument) : MachineStateDocument :=
  {| machineId := machineId d; locationId := locationId d;
     status := st; currentJobId := currentJobId d |}.

Definition set_currentJobId (job : string) (d : MachineStateDocument) : MachineStateDocument :=
  {| machineId := machineId d; locationId := locationId d;
     status := status d; currentJobId := Some job |}.

(** Modelled from the spec: the enum [HttpResponseCode] of [handler/model],
    with the five codes [api.ts] uses. *)
Inductive HttpResponseCode : Type :=
  | OK
  | BAD_REQUEST
  | UNAUTHORIZED
  | NOT_FOUND
  | INTERNAL_SERVER_ERROR.

#[global] Instance HttpResponseCode_eq_dec : EqDecision HttpResponseCode.
Proof. solve_decision. Defined.

(** The [machine] field of a response is a document, [undefined] (the
    handlers' failure branches) or [null] (the dispatcher's fallback). *)
Inductive MachineField : Type :=
  | machine_undefined
  | machine_null
  | machine_doc (d : MachineStateDocument).

(** A value of TypeScript type [MachineStateDocument | undefined]. *)
Definition field_of (o : option MachineStateDocument) : MachineField :=
  match o with
  | Some d => machine_doc d
  | None => machine_undefined
  end.

Record MachineResponseModel : Type := mkResponse {
  statusCode : HttpResponseCode;
  machine : MachineField
}.

(** [RequestModel] with the body fields of [RequestMachineRequestModel]:
    [handle] casts the request without a check, so the reserve handler
    reads [locationId] and [jobId] off the same object. *)
Record RequestModel : Type := mkRequest {
  method : string;
  path : string;
  token : string;
  request_locationId : string;
  request_jobId : string
}.

(** ** Collaborators *)

(** Modelled from the spec: the two external clients, [IdentityProviderClient]
    and [SmartMachineClient], are black boxes.  [validateToken] answers
    accept or reject; [startCycle_returns] tells whether the remote start
    command for a machine id returns or signals a failure.  A failure of
    the identity provider itself, which [checkToken] does not catch, is
    outside the model: the properties below speak of requests whose token
    it has answered. *)
Record Collaborators : Type := mkCollaborators {
  validateToken : string → bool;
  startCycle_returns : string → bool
}.

(** One entry per call on a collaborator, in the order the calls are made. *)
Inductive Event : Type :=
  | IdpValidateToken (tok : string)
  | TableListMachinesAtLocation (loc : string)
  | TableGetMachine (id : string)
  | TableUpdateMachineStatus (id : string) (st : MachineStatus)
  | TableUpdateMachineJobId (id : string) (job : string)
  | CacheGet (id : string)
  | CachePut (id : string) (v : option MachineStateDocument)
  | SmartMachineStartCycle (id : string).

#[global] Instance Event_eq_dec : EqDecision Event.
Proof. solve_decision. Defined.

(** Modelled from the spec: [MachineStateTable] of [database/table], a map
    of documents keyed by machine id (the two update methods are quoted in
    [api.ts] and read [this.machines.get(machineId)]).  The map is kept as
    the list of its documents in the order the store returns them, each
    stored under its own [machineId]; a lookup or update by id reaches the
    first document with that id.  Keys of a map are unique: [table_wf].

    Documents are values here.  Should the table hand out the stored
    objects themselves, a cached document would follow later updates of its
    record; the handlers cannot tell the difference, since each of them
    that updates a record reads it back and overwrites its cache entry
    before it returns, and none reads a document it fetched before an
    update. *)
Definition MachineStateTable : Type := list MachineStateDocument.

Definition table_wf (t : MachineStateTable) : Prop := NoDup (machineId <$> t).

Definition table_listMachinesAtLocation (t : MachineStateTable) (loc : string)
  : list MachineStateDocument :=
  filter (λ d, locationId d = loc) t.

Definition table_getMachine (t : MachineStateTable) (id : string)
  : option MachineStateDocument :=
  List.find (λ d, bool_decide (machineId d = id)) t.

(** [const machine = this.machines.get(machineId); if (machine) { ... }]:
    the document under [id] is changed in place, nothing happens when
    there is none. *)
Fixpoint table_update (f : MachineStateDocument → MachineStateDocument)
    (id : string) (t : MachineStateTable) : MachineStateTable :=
  match t with
  | [] => []
  | d :: t' =>
      if decide (machineId d = id) then f d :: t'
      else d :: table_update f id t'
  end.

Definition table_updateMachineStatus (t : MachineStateTable) (id : string)
    (st : MachineStatus) : MachineStateTable :=
  table_update (set_status st) id t.

Definition table_updateMachineJobId (t : MachineStateTable) (id : string)
    (job : string) : MachineStateTable :=
  table_update (set_currentJobId job) id t.

(** Modelled from the spec: [DataCache] of [database/cache], a key-value
    map with [get] and an unconditional [put].  The handlers pass
    [updated_machine!] to [put], a value that is [undefined] at run time
    when the re-read finds nothing, so an entry holds a document or
    [undefined]; [get] cannot tell such an entry from a missing one. *)
Definition cache_get (c : gmap string (option MachineStateDocument)) (id : string)
  : option MachineStateDocument :=
  mjoin (c !! id).

Definition cache_put (c : gmap string (option MachineStateDocument)) (id : string)
    (v : option MachineStateDocument) : gmap string (option MachineStateDocument) :=
  <[id := v]> c.

(** ** Route patterns of the dispatcher *)

(** The character class [[a-zA-Z0-9-]] of both route patterns. *)
Definition is_id_char (c : ascii) : bool :=
  let n := nat_of_ascii c in
  (((97 <=? n) && (n <=? 122)) || ((65 <=? n) && (n <=? 90))
   || ((48 <=? n) && (n <=? 57)) || (n =? 45))%nat.

(** [strip_prefix p s] is the rest of [s] after the literal prefix [p]. *)
Fixpoint strip_prefix (p s : string) : option string :=
  match p, s with
  | EmptyString, _ => Some s
  | String a p', String b s' => if decide (a = b) then strip_prefix p' s' else None
  | String _ _, EmptyString => None
  end.

(** The longest run of id characters at the front of [s], and what follows
    it.  The class does not contain ['/'], so the greedy [[a-zA-Z0-9-]+] of
    the patterns can only match this run: a shorter match would have to be
    followed by an id character where the pattern wants ['/'] or the end. *)
Fixpoint span_id (s : string) : string * string :=
  match s with
  | EmptyString => (EmptyString, EmptyString)
  | String c s' =>
      if is_id_char c then (String c (span_id s').1, (span_id s').2)
      else (EmptyString, s)
  end.

(** [path.match(/^\/machine\/([a-zA-Z0-9-]+)$/)], group 1 (api.ts 183). *)
Definition getMachineMatch (path : string) : option string :=
  match strip_prefix "/machine/" path with
  | Some rest =>
      let id := (span_id rest).1 in
      if decide (id ≠ EmptyString ∧ (span_id rest).2 = EmptyString) then Some id
      else None
  | None => None
  end.

(** [path.match(/^\/machine\/([a-zA-Z0-9-]+)\/start$/)], group 1 (api.ts 190). *)
Definition startMachineMatch (path : string) : option string :=
  match strip_prefix "/machine/" path with
  | Some rest =>
      let id := (span_id rest).1 in
      if decide (id ≠ EmptyString ∧ (span_id rest).2 = "/start") then Some id
      else None
  | None => None
  end.

(** ** The world and the handler monad *)

Record World : Type := mkWorld {
  table : MachineStateTable;
  cache : gmap string (option MachineStateDocument);
  trace : list Event
}.

(** What a handler can throw: the object literal of [checkToken], a failure
    signalled by the machine controller, and the [TypeError] of reading a
    property of [undefined]. *)
Inductive Thrown : Type :=
  | ThrownResponse (code : HttpResponseCode) (thrownMessage : string)
  | ControllerFailure (id : string)
  | TypeError.

Inductive Outcome (A : Type) : Type :=
  | Returned (a : A)
  | Threw (e : Thrown).
Arguments Returned {A} a.
Arguments Threw {A} e.

Definition Handler (A : Type) : Type := World → Outcome A * World.

Definition ret {A : Type} (a : A) : Handler A :=
  λ w, (Returned a, w).

(** An exception ends the handler: the continuation is not run. *)
Definition bind {A B : Type} (m : Handler A) (k : A → Handler B) : Handler B :=
  λ w,
    match m w with
    | (Returned a, w') => k a w'
    | (Threw e, w') => (Threw e, w')
    end.

Notation "'let*' x ':=' m 'in' k" := (bind m (λ x, k))
  (at level 10, x binder, m at level 100, k at level 200,
   format "'[v' 'let*'  x  ':='  m  'in'  '/' k ']'").
Notation "'do*' m 'in' k" := (bind m (λ _, k))
  (at level 10, m at level 100, k at level 200,
   format "'[v' 'do*'  m  'in'  '/' k ']'").

Definition throw {A : Type} (e : Thrown) : Handler A :=
  λ w, (Threw e, w).

Definition log (e : Event) (w : World) : World :=
  {| table := table w; cache := cache w; trace := trace w ++ [e] |}.

Section Workflow.

Variable env : Collaborators.

(** *** Collaborator calls, each logged *)

Definition idp_validateToken (tok : string) : Handler bool :=
  λ w, (Returned (validateToken env tok), log (IdpValidateToken tok) w).

Definition db_listMachinesAtLocation (loc : string) : Handler (list MachineStateDocument) :=
  λ w, (Returned (table_listMachinesAtLocation (table w) loc),
        log (TableListMachinesAtLocation loc) w).

Definition db_getMachine (id : string) : Handler (option MachineStateDocument) :=
  λ w, (Returned (table_getMachine (table w) id), log (TableGetMachine id) w).

Definition db_updateMachineStatus (id : string) (st : MachineStatus) : Handler unit :=
  λ w, (Returned (),
        {| table := table_updateMachineStatus (table w) id st;
           cache := cache w;
           trace := trace w ++ [TableUpdateMachineStatus id st] |}).

Definition db_updateMachineJobId (id : string) (job : string) : Handler unit :=
  λ w, (Returned (),
        {| table := table_updateMachineJobId (table w) id job;
           cache := cache w;
           trace := trace w ++ [TableUpdateMachineJobId id job] |}).

Definition dataCache_get (id : string) : Handler (option MachineStateDocument) :=
  λ w, (Returned (cache_get (cache w) id), log (CacheGet id) w).

Definition dataCache_put (id : string) (v : option MachineStateDocument) : Handler unit :=
  λ w, (Returned (),
        {| table := table w;
           cache := cache_put (cache w) id v;
           trace := trace w ++ [CachePut id v] |}).

Definition smartMachine_startCycle (id : string) : Handler unit :=
  λ w, (if startCycle_returns env id then Returned () else Threw (ControllerFailure id),
        log (SmartMachineStartCycle id) w).

(** *** [checkToken] (api.ts 23-32) *)

Definition unauthorized_message : string :=
  "ERROR: checkToken implementation flagged as unauthorized"
  +:+ String (ascii_of_nat 10) EmptyString.

Definition checkToken (tok : string) : Handler unit :=
  let* validity_of_token := idp_validateToken tok in
  if validity_of_token then ret ()
  else throw (ThrownResponse UNAUTHORIZED unauthorized_message).

(** *** [handleRequestMachine] (api.ts 43-101) *)

Definition handleRequestMachine (requested_location_ID requested_job_ID : string)
  : Handler MachineResponseModel :=
  let* machines_at_location := db_listMachinesAtLocation requested_location_ID in
  if decide (List.length machines_at_location = 0) then
    ret {| statusCode := NOT_FOUND; machine := machine_undefined |}
  else
    let available_machines_at_location :=
      filter (λ m, status m = AVAILABLE) machines_at_location in
    if decide (List.length available_machines_at_location = 0) then
      ret {| statusCode := BAD_REQUEST; machine := machine_undefined |}
    else
      match head available_machines_at_location with
      | None => throw TypeError
      | Some first_available_machine =>
          let curr_machine_id := machineId first_available_machine in
          do* db_updateMachineStatus curr_machine_id AWAITING_DROPOFF in
          do* db_updateMachineJobId curr_machine_id requested_job_ID in
          let* updated_machine := db_getMachine curr_machine_id in
          do* dataCache_put curr_machine_id updated_machine in
          ret {| statusCode := OK; machine := field_of updated_machine |}
      end.

(** *** [handleGetMachine] (api.ts 109-131) *)

Definition handleGetMachine (curr_machine_id : string) : Handler MachineResponseModel :=
  let* curr_machine := dataCache_get curr_machine_id in
  match curr_machine with
  | Some d => ret {| statusCode := OK; machine := machine_doc d |}
  | None =>
      let* curr_machine := db_getMachine curr_machine_id in
      match curr_machine with
      | None => ret {| statusCode := NOT_FOUND; machine := machine_undefined |}
      | Some d =>
          do* dataCache_put curr_machine_id (Some d) in
          ret {| statusCode := OK; machine := machine_doc d |}
      end
  end.

(** *** [handleStartMachine] (api.ts 140-168) *)

Definition handleStartMachine (curr_machine_id : string) : Handler MachineResponseModel :=
  let* curr_machine := dataCache_get curr_machine_id in
  let* resolved := match curr_machine with
                    | Some d => ret (Some d)
                    | None => db_getMachine curr_machine_id
                    end in
  match resolved with
  | None => ret {| statusCode := NOT_FOUND; machine := machine_undefined |}
  | Some curr_machine =>
      let curr_machine_status := status curr_machine in
      if decide (curr_machine_status ≠ AWAITING_DROPOFF) then
        ret {| statusCode := BAD_REQUEST; machine := machine_undefined |}
      else
        do* smartMachine_startCycle curr_machine_id in
        do* db_updateMachineStatus curr_machine_id RUNNING in
        let* updated_machine := db_getMachine curr_machine_id in
        do* dataCache_put curr_machine_id updated_machine in
        ret {| statusCode := OK; machine := field_of updated_machine |}
  end.

(** *** [handle] (api.ts 176-198) *)

(** [request.method === m && match]: the match counts only under method [m]. *)
Definition when_method (m : string) (request : RequestModel)
    (matched : option string) : option string :=
  if decide (method request = m) then matched else None.

Definition handle (request : RequestModel) : Handler MachineResponseModel :=
  do* checkToken (token request) in
  if decide (method request = "POST" ∧ path request = "/machine/request") then
    handleRequestMachine (request_locationId request) (request_jobId request)
  else
    match when_method "GET" request (getMachineMatch (path request)) with
    | Some machineId => handleGetMachine machineId
    | None =>
        match when_method "POST" request (startMachineMatch (path request)) with
        | Some machineId => handleStartMachine machineId
        | None =>
            ret {| statusCode := INTERNAL_SERVER_ERROR; machine := machine_null |}
        end
    end.

End Workflow.

(** ** Running the model: the scenario of the specification *)

Definition m1 : MachineStateDocument :=
  {| machineId := "m1"; locationId := "loc-1"; status := AVAILABLE; currentJobId := None |}.
Definition m2 : MachineStateDocument :=
  {| machineId := "m2"; locationId := "loc-1"; status := AVAILABLE; currentJobId := None |}.

Definition env0 : Collaborators :=
  {| validateToken := λ tok, bool_decide (tok = "secret");
     startCycle_returns := λ _, true |}.

(** The same identity provider with a machine controller that is down. *)
Definition env_down : Collaborators :=
  {| validateToken := λ tok, bool_decide (tok = "secret");
     startCycle_returns := λ _, false |}.

Definition world0 : World :=
  {| table := [m1; m2]; cache := ∅; trace := [] |}.

Definition request0 (meth pth tok : string) : RequestModel :=
  {| method := meth; path := pth; token := tok;
     request_locationId := "loc-1"; request_jobId := "j1" |}.

Definition reserve_request : RequestModel := request0 "POST" "/machine/request" "secret".
Definition get_request : RequestModel := request0 "GET" "/machine/m1" "secret".
Definition start_request : RequestModel := request0 "POST" "/machine/m1/start" "secret".

(** The world after [Reserve(loc-1, j1)], and after [Start(m1)] on top. *)
Definition world1 : World := (handle env0 reserve_request world0).2.
Definition world2 : World := (handle env0 start_request world1).2.

(** A location whose only machine is busy. *)
Definition world_busy : World :=
  {| table := [ {| machineId := "m7"; locationId := "loc-2";
                   status := RUNNING; currentJobId := Some "j0" |} ];
     cache := ∅; trace := [] |}.

Definition m1_reserved : MachineStateDocument :=
  {| machineId := "m1"; locationId := "loc-1";
     status := AWAITING_DROPOFF; currentJobId := Some "j1" |}.
Definition m1_running : MachineStateDocument :=
  {| machineId := "m1"; locationId := "loc-1";
     status := RUNNING; currentJobId := Some "j1" |}.

(** ** Notions the properties are stated with *)

(** The first [AVAILABLE] machine of a list, in the order of the list. *)
Definition first_available (l : list MachineStateDocument) : option MachineStateDocument :=
  List.find (λ m, bool_decide (status m = AVAILABLE)) l.

(** The document a reservation leaves under the id of [d]. *)
Definition reserved_for (job : string) (d : MachineStateDocument) : MachineStateDocument :=
  {| machineId := machineId d; locationId := locationId d;
     status := AWAITING_DROPOFF; currentJobId := Some job |}.

(** Cache-aside resolution: the cached snapshot, else the stored record. *)
Definition resolved_snapshot (w : World) (id : string) : option MachineStateDocument :=
  match cache_get (cache w) id with
  | Some d => Some d
  | None => table_getMachine (table w) id
  end.

(** The collaborator calls that resolution makes. *)
Definition resolution_events (w : World) (id : string) : list Event :=
  match cache_get (cache w) id with
  | Some _ => [CacheGet id]
  | None => [CacheGet id; TableGetMachine id]
  end.

(** Machine ids the controller was asked to start, oldest first. *)
Definition controller_calls (tr : list Event) : list string :=
  omap (λ e, match e with SmartMachineStartCycle id => Some id | _ => None end) tr.

(** The store-read counter: reads of the machine table in a trace. *)
Definition is_store_read (e : Event) : bool :=
  match e with
  | TableGetMachine _ | TableListMachinesAtLocation _ => true
  | _ => false
  end.

Definition store_reads (tr : list Event) : nat :=
  List.length (List.filter is_store_read tr).

(** Every cached snapshot is of a machine the table knows: the cache is
    filled from the table only, and the workflow never deletes a record. *)
Definition cache_coherent (w : World) : Prop :=
  ∀ id d, cache_get (cache w) id = Some d → is_Some (table_getMachine (table w) id).

(** Whether every character of an id segment is in the class. *)
Fixpoint all_id_chars (s : string) : bool :=
  match s with
  | EmptyString => true
  | String c s' => is_id_char c && all_id_chars s'
  end.

(** What C4 asks of a start request that misses the cache, finds the
    machine in the table and fails the status check: the cache then holds
    the fetched record. *)
Definition start_populates_cache_on_miss (env : Collaborators) (w : World)
    (id : string) : Prop :=
  ∀ d, cache_get (cache w) id = None →
       table_getMachine (table w) id = Some d →
       status d ≠ AWAITING_DROPOFF →
       cache_get (cache (handleStartMachine env id w).2) id = Some d.

(** What C8 asks of the second of two get calls in a row: it adds nothing
    to the store-read counter. *)
Definition second_get_reads_no_store (w : World) (id : string) : Prop :=
  let after_first := (handleGetMachine id w).2 in
  let after_second := (handleGetMachine id after_first).2 in
  store_reads (trace after_second) = store_reads (trace after_first).

(** An id segment the route patterns accept: one or more characters, all
    of the class. *)
Definition valid_id (id : string) : Prop :=
  id ≠ EmptyString ∧ all_id_chars id = true.

(** The cache is fresh when every snapshot it returns is the record the
    table holds under that id. *)
Definition cache_fresh (w : World) : Prop :=
  ∀ id d, cache_get (cache w) id = Some d → table_getMachine (table w) id = Some d.

(** A job is bound to a machine exactly when the machine is not
    [AVAILABLE]. *)
Definition job_bound_unless_available (t : MachineStateTable) : Prop :=
  ∀ d, d ∈ t → (currentJobId d = None ↔ status d = AVAILABLE).

(** Requests handled one after the other on the shared table and cache; a
    request that throws leaves the world it reached to the next one. *)
Definition serve (env : Collaborators) (requests : list RequestModel) (w : World) : World :=
  foldl (λ w request, (handle env request w).2) w requests.

(** Whether some route of [handle] takes the request. *)
Definition routed (request : RequestModel) : Prop :=
  (method request = "POST" ∧ path request = "/machine/request")
  ∨ (method request = "GET"
     ∧ ∃ id, valid_id id ∧ path request = "/machine/" +:+ id)
  ∨ (method request = "POST"
     ∧ ∃ id, valid_id id ∧ path request = "/machine/" +:+ id +:+ "/start").

Definition is_validation (e : Event) : bool :=
  match e with
  | IdpValidateToken _ => true
  | _ => false
  end.

(** The responses of the three operations: ok, with whatever the re-read
    gave, or bad-request or not-found with [undefined]. *)
Definition operation_response (resp : MachineResponseModel) : Prop :=
  (statusCode resp = OK ∧ machine resp ≠ machine_null)
  ∨ ((statusCode resp = BAD_REQUEST ∨ statusCode resp = NOT_FOUND)
     ∧ machine resp = machine_undefined).

(** The machines a reserve at [loc] can pick from, in listing order. *)
Definition available_at (t : MachineStateTable) (loc : string)
  : list MachineStateDocument :=
  filter (λ m, status m = AVAILABLE) (table_listMachinesAtLocation t loc).

(** Runs the collaborator calls in the goal and flattens the trace. *)
Ltac run_calls :=
  unfold bind, ret, throw, idp_validateToken, db_listMachinesAtLocation,
    db_getMachine, db_updateMachineStatus, db_updateMachineJobId,
    dataCache_get, dataCache_put, smartMachine_startCycle, cache_put, log;
  simpl; rewrite <- ?app_assoc; simpl.

(** ** The machine table *)

Section Table.

Implicit Types (t : MachineStateTable) (d : MachineStateDocument) (id : string).

Lemma table_getMachine_Some t id d :
  table_getMachine t id = Some d → d ∈ t ∧ machineId d = id.
Proof.
  unfold table_getMachine. intros H.
  apply find_some in H as [Hin Hid].
  apply bool_decide_eq_true in Hid.
  split; [by apply list_elem_of_In | done].
Qed.

Lemma table_getMachine_wf t d :
  table_wf t → d ∈ t → table_getMachine t (machineId d) = Some d.
Proof.
  unfold table_wf, table_getMachine.
  induction t as [|x t IH]; intros Hwf Hin; [by apply elem_of_nil in Hin|].
  rewrite fmap_cons in Hwf. apply NoDup_cons in Hwf as [Hx Hwf].
  simpl. case_bool_decide as Hid.
  - apply elem_of_cons in Hin as [->|Hin]; [done|].
    exfalso. apply Hx. rewrite Hid. by apply list_elem_of_fmap_2.
  - apply elem_of_cons in Hin as [->|Hin]; [done|]. by apply IH.
Qed.

Lemma table_getMachine_split t id d :
  table_getMachine t id = Some d →
  ∃ l1 l2, t = l1 ++ d :: l2 ∧ (∀ x, x ∈ l1 → machineId x ≠ id) ∧ machineId d = id.
Proof.
  unfold table_getMachine.
  induction t as [|x t IH]; simpl; [done|].
  case_bool_decide as Hid; intros H.
  - injection H as <-. exists [], t. split_and!; [done| |done].
    intros y Hy. by apply elem_of_nil in Hy.
  - destruct (IH H) as (l1 & l2 & -> & Hl1 & Hd).
    exists (x :: l1), l2. split_and!; [done| |done].
    intros y [->|Hy]%elem_of_cons; [done|by apply Hl1].
Qed.

Lemma table_update_split f id l1 d l2 :
  (∀ x, x ∈ l1 → machineId x ≠ id) → machineId d = id →
  table_update f id (l1 ++ d :: l2) = l1 ++ f d :: l2.
Proof.
  intros Hl1 Hd. induction l1 as [|x l1 IH]; simpl.
  - by rewrite decide_True.
  - rewrite decide_False; [|apply Hl1; by left].
    f_equal. apply IH. intros y Hy. apply Hl1. by right.
Qed.

Lemma table_update_absent f id t :
  table_getMachine t id = None → table_update f id t = t.
Proof.
  unfold table_getMachine.
  induction t as [|x t IH]; simpl; [done|].
  case_bool_decide as Hid; [done|]. intros H.
  rewrite decide_False; [|done]. by rewrite IH.
Qed.

Section Update.

Variable f : MachineStateDocument → MachineStateDocument.
Hypothesis f_keeps_id : ∀ d, machineId (f d) = machineId d.

Lemma table_update_ids id t :
  machineId <$> table_update f id t = machineId <$> t.
Proof.
  induction t as [|x t IH]; simpl; [done|].
  case_decide; rewrite !fmap_cons; [by rewrite f_keeps_id|by rewrite IH].
Qed.

Lemma table_update_wf id t : table_wf t → table_wf (table_update f id t).
Proof. unfold table_wf. by rewrite table_update_ids. Qed.

Lemma table_getMachine_update id id' t :
  table_getMachine (table_update f id t) id' =
    if decide (id = id') then f <$> table_getMachine t id' else table_getMachine t id'.
Proof.
  unfold table_getMachine.
  induction t as [|x t IH]; simpl; [by case_decide|].
  destruct (decide (machineId x = id)) as [Hx|Hx]; simpl.
  - rewrite f_keeps_id. case_decide as Hid.
    + rewrite bool_decide_eq_true_2; [done|congruence].
    + rewrite bool_decide_eq_false_2; [done|congruence].
  - case_bool_decide as Hx'; [|done].
    rewrite decide_False; [done|congruence].
Qed.

End Update.

Lemma head_filter_available (l : list MachineStateDocument) :
  head (filter (λ m, status m = AVAILABLE) l) = first_available l.
Proof.
  unfold first_available.
  induction l as [|x l IH]; [done|].
  rewrite filter_cons. simpl. case_decide as Hx.
  - by rewrite bool_decide_eq_true_2.
  - by rewrite bool_decide_eq_false_2.
Qed.

Lemma first_available_Some (l : list MachineStateDocument) d :
  first_available l = Some d → d ∈ l ∧ status d = AVAILABLE.
Proof.
  unfold first_available. intros H.
  apply find_some in H as [Hin Hst].
  apply bool_decide_eq_true in Hst.
  split; [by apply list_elem_of_In | done].
Qed.

Lemma first_available_None (l : list MachineStateDocument) :
  first_available l = None ↔ ∀ m, m ∈ l → status m ≠ AVAILABLE.
Proof.
  unfold first_available. split.
  - intros H m Hm Hst. apply list_elem_of_In in Hm.
    pose proof (find_none _ _ H m Hm) as Hb. simpl in Hb.
    by rewrite bool_decide_eq_true_2 in Hb.
  - intros H. destruct (List.find _ l) as [d|] eqn:Hf; [|done].
    apply find_some in Hf as [Hin Hst].
    apply bool_decide_eq_true in Hst. apply list_elem_of_In in Hin.
    by destruct (H d Hin).
Qed.

Lemma first_available_exists (l : list MachineStateDocument) m :
  m ∈ l → status m = AVAILABLE → is_Some (first_available l).
Proof.
  intros Hm Hst. destruct (first_available l) as [d|] eqn:Hf; [by eexists|].
  exfalso. by apply (proj1 (first_available_None l) Hf m).
Qed.

End Table.

(** ** Reserve: [handleRequestMachine] *)

(** The run of the reserve handler, by cases on what the table lists. *)
Lemma handleRequestMachine_run loc job w :
  handleRequestMachine loc job w =
    let l := table_listMachinesAtLocation (table w) loc in
    let listed := log (TableListMachinesAtLocation loc) w in
    match l with
    | [] => (Returned {| statusCode := NOT_FOUND; machine := machine_undefined |}, listed)
    | _ :: _ =>
        match first_available l with
        | None =>
            (Returned {| statusCode := BAD_REQUEST; machine := machine_undefined |}, listed)
        | Some first =>
            let id := machineId first in
            let table' :=
              table_updateMachineJobId
                (table_updateMachineStatus (table w) id AWAITING_DROPOFF) id job in
            let updated := table_getMachine table' id in
            (Returned {| statusCode := OK; machine := field_of updated |},
             {| table := table';
                cache := <[id := updated]> (cache w);
                trace := trace w ++ [TableListMachinesAtLocation loc;
                                     TableUpdateMachineStatus id AWAITING_DROPOFF;
                                     TableUpdateMachineJobId id job;
                                     TableGetMachine id;
                                     CachePut id updated] |})
        end
    end.
Proof.
  unfold handleRequestMachine. run_calls.
  destruct (table_listMachinesAtLocation (table w) loc) as [|x l] eqn:Hl; [done|].
  rewrite decide_False; [|done].
  rewrite <- head_filter_available.
  destruct (filter _ (x :: l)) as [|first rest]; [done|].
  rewrite decide_False; [|done]. simpl. by rewrite <- ?app_assoc.
Qed.

Lemma listed_in_table (t : MachineStateTable) loc d :
  d ∈ table_listMachinesAtLocation t loc → d ∈ t ∧ locationId d = loc.
Proof.
  unfold table_listMachinesAtLocation. rewrite list_elem_of_filter. tauto.
Qed.

(** The table after the two updates of a reservation, read back. *)
Lemma reserved_read_back (t : MachineStateTable) job first :
  table_getMachine t (machineId first) = Some first →
  table_getMachine
    (table_updateMachineJobId
       (table_updateMachineStatus t (machineId first) AWAITING_DROPOFF)
       (machineId first) job)
    (machineId first) = Some (reserved_for job first).
Proof.
  intros Hget. unfold table_updateMachineJobId, table_updateMachineStatus.
  rewrite !table_getMachine_update by done.
  rewrite !decide_True by done. by rewrite Hget.
Qed.

(** C6: a reserve request at a location for which the table lists no machine
    returns not-found; at a location whose list is not empty but holds no
    [AVAILABLE] machine it returns bad-request; either way the table and the
    cache are as before and the only collaborator call is the listing. *)
Theorem reserve_not_found_or_bad_request w loc job :
  let l := table_listMachinesAtLocation (table w) loc in
  let unchanged :=
    {| table := table w; cache := cache w;
       trace := trace w ++ [TableListMachinesAtLocation loc] |} in
  (l = [] →
     handleRequestMachine loc job w =
       (Returned {| statusCode := NOT_FOUND; machine := machine_undefined |}, unchanged))
  ∧ (l ≠ [] → (∀ m, m ∈ l → status m ≠ AVAILABLE) →
     handleRequestMachine loc job w =
       (Returned {| statusCode := BAD_REQUEST; machine := machine_undefined |}, unchanged)).
Proof.
  intros l unchanged. rewrite handleRequestMachine_run. cbv zeta.
  fold l. split.
  - by intros ->.
  - intros Hne Hnone. apply first_available_None in Hnone.
    rewrite Hnone. by destruct l.
Qed.

(** C1: when the table lists an [AVAILABLE] machine at the location, the
    reserve handler picks the first [AVAILABLE] one in listing order, sets
    its status to [AWAITING_DROPOFF] and its job to the requested one, reads
    it back, puts exactly the record read back into the cache under the
    machine's id (over any earlier entry) and returns ok with that record. *)
Theorem reserve_first_available w loc job m :
  table_wf (table w) →
  m ∈ table_listMachinesAtLocation (table w) loc → status m = AVAILABLE →
  ∃ first,
    first_available (table_listMachinesAtLocation (table w) loc) = Some first ∧
    let id := machineId first in
    let table' :=
      table_updateMachineJobId
        (table_updateMachineStatus (table w) id AWAITING_DROPOFF) id job in
    table_getMachine table' id = Some (reserved_for job first) ∧
    handleRequestMachine loc job w =
      (Returned {| statusCode := OK; machine := machine_doc (reserved_for job first) |},
       {| table := table';
          cache := <[id := Some (reserved_for job first)]> (cache w);
          trace := trace w ++ [TableListMachinesAtLocation loc;
                               TableUpdateMachineStatus id AWAITING_DROPOFF;
                               TableUpdateMachineJobId id job;
                               TableGetMachine id;
                               CachePut id (Some (reserved_for job first))] |}).
Proof.
  intros Hwf Hm Hst.
  destruct (first_available_exists _ m Hm Hst) as [first Hfirst].
  exists first. split; [done|]. intros id table'.
  pose proof (first_available_Some _ _ Hfirst) as [Hin _].
  apply listed_in_table in Hin as [Hin _].
  pose proof (reserved_read_back (table w) job first
                (table_getMachine_wf _ _ Hwf Hin)) as Hread.
  split; [done|].
  rewrite handleRequestMachine_run. cbv zeta. rewrite Hfirst, Hread.
  by destruct (table_listMachinesAtLocation (table w) loc);
    [apply elem_of_nil in Hm|].
Qed.

(** C7: a reserve that returns ok changes exactly one record of the table,
    the selected one: the table is the old one with that record replaced at
    its place by the reserved record, which differs from it; every other
    record, the [AVAILABLE] siblings at the location among them, is the
    same document as before, and the selected one keeps its machine id and
    location. *)
Theorem reserve_changes_one_record w loc job resp :
  table_wf (table w) →
  (handleRequestMachine loc job w).1 = Returned resp →
  statusCode resp = OK →
  ∃ first l1 l2,
    first_available (table_listMachinesAtLocation (table w) loc) = Some first ∧
    table w = l1 ++ first :: l2 ∧
    table (handleRequestMachine loc job w).2 = l1 ++ reserved_for job first :: l2 ∧
    reserved_for job first ≠ first ∧
    machineId (reserved_for job first) = machineId first ∧
    locationId (reserved_for job first) = locationId first ∧
    ∀ id, id ≠ machineId first →
      table_getMachine (table (handleRequestMachine loc job w).2) id
      = table_getMachine (table w) id.
Proof.
  intros Hwf Hret Hok. rewrite handleRequestMachine_run in *.
  cbv zeta in *.
  destruct (table_listMachinesAtLocation (table w) loc) as [|x l] eqn:Hl;
    [simpl in Hret; injection Hret as <-; done|].
  destruct (first_available (x :: l)) as [first|] eqn:Hfirst;
    [|simpl in Hret; injection Hret as <-; done].
  simpl. exists first.
  pose proof (first_available_Some _ _ Hfirst) as [Hin Hav].
  rewrite <- Hl in Hin. apply listed_in_table in Hin as [Hin _].
  pose proof (table_getMachine_wf _ _ Hwf Hin) as Hget.
  destruct (table_getMachine_split _ _ _ Hget) as (l1 & l2 & Ht & Hl1 & _).
  exists l1, l2. split_and!; try done.
  - unfold table_updateMachineJobId, table_updateMachineStatus.
    rewrite Ht.
    rewrite (table_update_split _ _ l1 first l2 Hl1 eq_refl).
    by rewrite (table_update_split _ _ l1 (set_status AWAITING_DROPOFF first) l2
                  Hl1 eq_refl).
  - intros Heq. apply (f_equal status) in Heq. simpl in Heq. congruence.
  - intros id Hid.
    unfold table_updateMachineJobId, table_updateMachineStatus.
    rewrite !table_getMachine_update by done.
    by rewrite !decide_False by congruence.
Qed.

(** ** Get: [handleGetMachine] *)

(** The run of the get handler, by cases on the cache and the table. *)
Lemma handleGetMachine_run id w :
  handleGetMachine id w =
    match cache_get (cache w) id with
    | Some d =>
        (Returned {| statusCode := OK; machine := machine_doc d |},
         {| table := table w; cache := cache w; trace := trace w ++ [CacheGet id] |})
    | None =>
        match table_getMachine (table w) id with
        | None =>
            (Returned {| statusCode := NOT_FOUND; machine := machine_undefined |},
             {| table := table w; cache := cache w;
                trace := trace w ++ [CacheGet id; TableGetMachine id] |})
        | Some d =>
            (Returned {| statusCode := OK; machine := machine_doc d |},
             {| table := table w; cache := <[id := Some d]> (cache w);
                trace := trace w ++ [CacheGet id; TableGetMachine id;
                                     CachePut id (Some d)] |})
        end
    end.
Proof.
  unfold handleGetMachine. run_calls.
  destruct (cache_get (cache w) id) as [d|]; [done|]. simpl.
  by destruct (table_getMachine (table w) id) as [d|]; run_calls.
Qed.

(** C5: a get request whose id the cache answers returns ok with the cached
    record and makes no call on the table; on a cache miss the table is
    read, an id absent there gives not-found, and a record found there is
    put into the cache and returned with ok. *)
Theorem get_cache_aside w id :
  (∀ d, cache_get (cache w) id = Some d →
     handleGetMachine id w =
       (Returned {| statusCode := OK; machine := machine_doc d |},
        {| table := table w; cache := cache w; trace := trace w ++ [CacheGet id] |}))
  ∧ (cache_get (cache w) id = None → table_getMachine (table w) id = None →
     handleGetMachine id w =
       (Returned {| statusCode := NOT_FOUND; machine := machine_undefined |},
        {| table := table w; cache := cache w;
           trace := trace w ++ [CacheGet id; TableGetMachine id] |}))
  ∧ (∀ d, cache_get (cache w) id = None → table_getMachine (table w) id = Some d →
     handleGetMachine id w =
       (Returned {| statusCode := OK; machine := machine_doc d |},
        {| table := table w; cache := <[id := Some d]> (cache w);
           trace := trace w ++ [CacheGet id; TableGetMachine id;
                                CachePut id (Some d)] |})).
Proof.
  rewrite handleGetMachine_run. split_and!.
  - by intros d ->.
  - by intros -> ->.
  - by intros d -> ->.
Qed.

Lemma cache_get_insert (c : gmap string (option MachineStateDocument)) id v :
  cache_get (<[id := v]> c) id = v.
Proof. unfold cache_get. by rewrite lookup_insert_eq. Qed.

Lemma cache_get_insert_ne (c : gmap string (option MachineStateDocument)) id id' v :
  id ≠ id' → cache_get (<[id := v]> c) id' = cache_get c id'.
Proof. intros Hne. unfold cache_get. by rewrite lookup_insert_ne. Qed.

(** C8, as amended: two get calls in a row for one id leave the table as it
    was and return the same response.  When the id resolves to a record
    (from the cache or, failing that, the table), both return ok with that
    record, the first call writes at most the one cache entry of a first
    population, and the second makes a single call, the cache read.  When
    the id is unknown to both, both calls return not-found, nothing is
    cached, and the second call reads the table again. *)
Theorem get_twice w id :
  let first := handleGetMachine id w in
  let second := handleGetMachine id first.2 in
  table first.2 = table w ∧ table second.2 = table w ∧ second.1 = first.1
  ∧ (∀ d, resolved_snapshot w id = Some d →
       first.1 = Returned {| statusCode := OK; machine := machine_doc d |}
       ∧ cache first.2 = match cache_get (cache w) id with
                         | Some _ => cache w
                         | None => <[id := Some d]> (cache w)
                         end
       ∧ second.2 = {| table := table w; cache := cache first.2;
                       trace := trace first.2 ++ [CacheGet id] |})
  ∧ (resolved_snapshot w id = None →
       first.1 = Returned {| statusCode := NOT_FOUND; machine := machine_undefined |}
       ∧ cache second.2 = cache w
       ∧ trace second.2 = trace first.2 ++ [CacheGet id; TableGetMachine id]).
Proof.
  intros first second. subst second first.
  unfold resolved_snapshot. rewrite !handleGetMachine_run.
  destruct (cache_get (cache w) id) as [c|] eqn:Hc; simpl.
  - rewrite Hc. split_and!; try done.
    by intros d [= <-].
  - destruct (table_getMachine (table w) id) as [s|] eqn:Hs; simpl.
    + rewrite cache_get_insert. split_and!; try done.
      by intros d [= <-].
    + rewrite Hc, Hs. by split_and!.
Qed.

(** ** Start: [handleStartMachine] *)

(** The run of the start handler, by cases on the resolved snapshot, its
    status and the answer of the controller. *)
Lemma handleStartMachine_run env id w :
  handleStartMachine env id w =
    let resolved :=
      {| table := table w; cache := cache w;
         trace := trace w ++ resolution_events w id |} in
    match resolved_snapshot w id with
    | None =>
        (Returned {| statusCode := NOT_FOUND; machine := machine_undefined |}, resolved)
    | Some snapshot =>
        if decide (status snapshot = AWAITING_DROPOFF) then
          if startCycle_returns env id then
            let table' := table_updateMachineStatus (table w) id RUNNING in
            let updated := table_getMachine table' id in
            (Returned {| statusCode := OK; machine := field_of updated |},
             {| table := table';
                cache := <[id := updated]> (cache w);
                trace := trace w ++ resolution_events w id
                           ++ [SmartMachineStartCycle id;
                               TableUpdateMachineStatus id RUNNING;
                               TableGetMachine id;
                               CachePut id updated] |})
          else
            (Threw (ControllerFailure id),
             {| table := table w; cache := cache w;
                trace := trace w ++ resolution_events w id
                           ++ [SmartMachineStartCycle id] |})
        else
          (Returned {| statusCode := BAD_REQUEST; machine := machine_undefined |},
           resolved)
    end.
Proof.
  unfold handleStartMachine, resolved_snapshot, resolution_events. run_calls.
  destruct (cache_get (cache w) id) as [c|]; simpl.
  - destruct (decide (status c = AWAITING_DROPOFF)) as [Hst|Hst].
    + rewrite decide_False by naive_solver.
      by destruct (startCycle_returns env id); run_calls.
    + by rewrite decide_True.
  - destruct (table_getMachine (table w) id) as [s|]; run_calls; [|done].
    destruct (decide (status s = AWAITING_DROPOFF)) as [Hst|Hst].
    + rewrite decide_False by naive_solver.
      by destruct (startCycle_returns env id); run_calls.
    + by rewrite decide_True.
Qed.

Lemma controller_calls_app tr1 tr2 :
  controller_calls (tr1 ++ tr2) = controller_calls tr1 ++ controller_calls tr2.
Proof. apply omap_app. Qed.

Lemma controller_calls_resolution w id :
  controller_calls (resolution_events w id) = [].
Proof. unfold resolution_events. by destruct (cache_get (cache w) id). Qed.

(** C2: a start request whose resolved snapshot (cached, else stored) has a
    status other than [AWAITING_DROPOFF], [RUNNING] included, returns
    bad-request; the controller is not called, and the table and the cache
    are as before: the only calls are the reads of the resolution. *)
Theorem start_wrong_status env w id snapshot :
  resolved_snapshot w id = Some snapshot →
  status snapshot ≠ AWAITING_DROPOFF →
  handleStartMachine env id w =
    (Returned {| statusCode := BAD_REQUEST; machine := machine_undefined |},
     {| table := table w; cache := cache w;
        trace := trace w ++ resolution_events w id |})
  ∧ controller_calls (trace (handleStartMachine env id w).2) = controller_calls (trace w).
Proof.
  intros Hres Hst. rewrite handleStartMachine_run, Hres. cbv zeta.
  rewrite decide_False by done. split; [done|]. simpl.
  by rewrite controller_calls_app, controller_calls_resolution, app_nil_r.
Qed.

(** A coherent cache knows of no machine the table lacks, so a resolved
    snapshot always comes with a stored record. *)
Lemma resolved_is_stored w id snapshot :
  cache_coherent w → resolved_snapshot w id = Some snapshot →
  is_Some (table_getMachine (table w) id).
Proof.
  unfold resolved_snapshot. intros Hcoh Hres.
  destruct (cache_get (cache w) id) as [c|] eqn:Hc; [by eapply Hcoh|].
  by rewrite Hres.
Qed.

Lemma status_read_back (t : MachineStateTable) id st stored :
  table_getMachine t id = Some stored →
  table_getMachine (table_updateMachineStatus t id st) id = Some (set_status st stored).
Proof.
  intros Hget. unfold table_updateMachineStatus.
  rewrite table_getMachine_update by done.
  rewrite decide_True by done. by rewrite Hget.
Qed.

(** C3: a start request whose resolved snapshot is [AWAITING_DROPOFF] calls
    the controller's [startCycle] exactly once, with the machine's id; when
    that call returns, the stored status becomes [RUNNING], the record is
    read back, the cache entry of the id is overwritten with the record
    read back, and ok is returned with it, so that the cache and the table
    then agree on the machine. *)
Theorem start_awaiting_dropoff env w id snapshot :
  cache_coherent w →
  resolved_snapshot w id = Some snapshot →
  status snapshot = AWAITING_DROPOFF →
  ∃ stored,
    table_getMachine (table w) id = Some stored ∧
    controller_calls (trace (handleStartMachine env id w).2)
      = controller_calls (trace w) ++ [id] ∧
    (startCycle_returns env id = true →
       let running := set_status RUNNING stored in
       let table' := table_updateMachineStatus (table w) id RUNNING in
       table_getMachine table' id = Some running ∧
       handleStartMachine env id w =
         (Returned {| statusCode := OK; machine := machine_doc running |},
          {| table := table';
             cache := <[id := Some running]> (cache w);
             trace := trace w ++ resolution_events w id
                        ++ [SmartMachineStartCycle id;
                            TableUpdateMachineStatus id RUNNING;
                            TableGetMachine id;
                            CachePut id (Some running)] |}) ∧
       cache_get (cache (handleStartMachine env id w).2) id
         = table_getMachine (table (handleStartMachine env id w).2) id).
Proof.
  intros Hcoh Hres Hst.
  destruct (resolved_is_stored _ _ _ Hcoh Hres) as [stored Hstored].
  exists stored. split; [done|].
  pose proof (status_read_back _ _ RUNNING _ Hstored) as Hread.
  rewrite handleStartMachine_run, Hres. cbv zeta.
  rewrite decide_True by done. rewrite Hread. split.
  - destruct (startCycle_returns env id); simpl;
      rewrite !controller_calls_app, controller_calls_resolution; by simpl.
  - intros ->. simpl. by rewrite cache_get_insert.
Qed.

(** C4, as amended: the start handler looks the machine up in the cache
    first and reads the table only on a miss, but it does not put the
    record it fetched into the cache: a start request that finds its
    machine in the table after a cache miss and fails the status check
    returns bad-request with the cache exactly as it was (and so does one
    that finds the machine nowhere, with not-found).  The cache is written
    on the success path only, once, after the controller has returned and
    the status has been updated, and with the record read back, which is
    not the record fetched by the resolution: when the snapshot is
    [AWAITING_DROPOFF] and the controller fails, the cache is as it was.
    The seven cases below are all the runs of the handler. *)
Theorem start_resolves_without_populating env w id :
  (∀ d, cache_get (cache w) id = Some d → status d ≠ AWAITING_DROPOFF →
     handleStartMachine env id w =
       (Returned {| statusCode := BAD_REQUEST; machine := machine_undefined |},
        {| table := table w; cache := cache w; trace := trace w ++ [CacheGet id] |}))
  ∧ (cache_get (cache w) id = None → table_getMachine (table w) id = None →
     handleStartMachine env id w =
       (Returned {| statusCode := NOT_FOUND; machine := machine_undefined |},
        {| table := table w; cache := cache w;
           trace := trace w ++ [CacheGet id; TableGetMachine id] |}))
  ∧ (∀ d, cache_get (cache w) id = None → table_getMachine (table w) id = Some d →
     status d ≠ AWAITING_DROPOFF →
     handleStartMachine env id w =
       (Returned {| statusCode := BAD_REQUEST; machine := machine_undefined |},
        {| table := table w; cache := cache w;
           trace := trace w ++ [CacheGet id; TableGetMachine id] |}))
  ∧ (∀ d, cache_get (cache w) id = None → table_getMachine (table w) id = Some d →
     status d = AWAITING_DROPOFF → startCycle_returns env id = false →
     handleStartMachine env id w =
       (Threw (ControllerFailure id),
        {| table := table w; cache := cache w;
           trace := trace w ++ [CacheGet id; TableGetMachine id;
                                SmartMachineStartCycle id] |}))
  ∧ (∀ d, cache_get (cache w) id = None → table_getMachine (table w) id = Some d →
     status d = AWAITING_DROPOFF → startCycle_returns env id = true →
     set_status RUNNING d ≠ d
     ∧ handleStartMachine env id w =
         (Returned {| statusCode := OK; machine := machine_doc (set_status RUNNING d) |},
          {| table := table_updateMachineStatus (table w) id RUNNING;
             cache := <[id := Some (set_status RUNNING d)]> (cache w);
             trace := trace w ++ [CacheGet id; TableGetMachine id;
                                  SmartMachineStartCycle id;
                                  TableUpdateMachineStatus id RUNNING;
                                  TableGetMachine id;
                                  CachePut id (Some (set_status RUNNING d))] |}))
  ∧ (∀ d, cache_get (cache w) id = Some d →
     status d = AWAITING_DROPOFF → startCycle_returns env id = false →
     handleStartMachine env id w =
       (Threw (ControllerFailure id),
        {| table := table w; cache := cache w;
           trace := trace w ++ [CacheGet id; SmartMachineStartCycle id] |}))
  ∧ (∀ d, cache_get (cache w) id = Some d →
     status d = AWAITING_DROPOFF → startCycle_returns env id = true →
     let read_back :=
       table_getMachine (table_updateMachineStatus (table w) id RUNNING) id in
     handleStartMachine env id w =
       (Returned {| statusCode := OK; machine := field_of read_back |},
        {| table := table_updateMachineStatus (table w) id RUNNING;
           cache := <[id := read_back]> (cache w);
           trace := trace w ++ [CacheGet id;
                                SmartMachineStartCycle id;
                                TableUpdateMachineStatus id RUNNING;
                                TableGetMachine id;
                                CachePut id read_back] |})).
Proof.
  rewrite handleStartMachine_run. unfold resolved_snapshot, resolution_events.
  split_and!.
  - intros d -> Hst. cbv zeta. by rewrite decide_False.
  - by intros -> ->.
  - intros d -> -> Hst. cbv zeta. by rewrite decide_False.
  - intros d -> -> Hst ->. cbv zeta. by rewrite decide_True.
  - intros d -> Hd Hst ->. rewrite Hd. cbv zeta. rewrite decide_True by done.
    rewrite (status_read_back _ _ RUNNING _ Hd). split; [|done].
    intros Heq. apply (f_equal status) in Heq. simpl in Heq. congruence.
  - intros d -> Hst ->. cbv zeta. by rewrite decide_True.
  - intros d -> Hst ->. cbv zeta. by rewrite decide_True.
Qed.

(** ** The gate and the dispatcher: [handle] *)

(** C9: when the identity provider rejects the token, [handle] ends with
    the unauthorized outcome (the object [checkToken] throws); the only
    collaborator call is the validation itself: the request is not
    dispatched, and the cache, the table and the controller are not reached.
    The route does not matter. *)
Theorem handle_unauthorized env request w :
  validateToken env (token request) = false →
  handle env request w =
    (Threw (ThrownResponse UNAUTHORIZED unauthorized_message),
     {| table := table w; cache := cache w;
        trace := trace w ++ [IdpValidateToken (token request)] |}).
Proof.
  intros Hrej. unfold handle, checkToken. run_calls. by rewrite Hrej.
Qed.

Lemma handle_authorized env request w :
  validateToken env (token request) = true →
  handle env request w =
    (let dispatched := log (IdpValidateToken (token request)) w in
     if decide (method request = "POST" ∧ path request = "/machine/request") then
       handleRequestMachine (request_locationId request) (request_jobId request)
         dispatched
     else
       match when_method "GET" request (getMachineMatch (path request)) with
       | Some id => handleGetMachine id dispatched
       | None =>
           match when_method "POST" request (startMachineMatch (path request)) with
           | Some id => handleStartMachine env id dispatched
           | None =>
               (Returned {| statusCode := INTERNAL_SERVER_ERROR;
                            machine := machine_null |}, dispatched)
           end
       end).
Proof.
  intros Hacc. unfold handle, checkToken, bind, idp_validateToken.
  rewrite Hacc. simpl.
  case_decide; [done|].
  destruct (when_method "GET" request _); [done|].
  by destruct (when_method "POST" request _).
Qed.

Lemma string_app_cons (c : ascii) (s1 s2 : string) :
  String c s1 +:+ s2 = String c (s1 +:+ s2).
Proof. done. Qed.

Lemma string_length_app (s1 s2 : string) :
  String.length (s1 +:+ s2) = String.length s1 + String.length s2.
Proof.
  induction s1 as [|c s1 IH]; [done|].
  rewrite string_app_cons. simpl. by rewrite IH.
Qed.

Lemma string_app_empty_r (s : string) : s +:+ "" = s.
Proof.
  induction s as [|c s IH]; [done|]. by rewrite string_app_cons, IH.
Qed.

Lemma strip_prefix_app (p s : string) : strip_prefix p (p +:+ s) = Some s.
Proof.
  induction p as [|c p IH]; [by destruct s|].
  rewrite string_app_cons. simpl. by rewrite decide_True.
Qed.

(** The run of id characters stops at the first character outside the
    class; the rest begins with that character. *)
Lemma span_id_bad (id s : string) :
  all_id_chars id = false →
  ∃ c post, (span_id (id +:+ s)).2 = String c (post +:+ s).
Proof.
  induction id as [|c id IH]; [done|].
  rewrite string_app_cons. simpl.
  destruct (is_id_char c); simpl; [done|]. by exists c, id.
Qed.

Lemma getMachineMatch_bad (id : string) :
  all_id_chars id = false → getMachineMatch ("/machine/" +:+ id) = None.
Proof.
  intros Hbad. unfold getMachineMatch. rewrite strip_prefix_app.
  destruct (span_id_bad id "" Hbad) as (c & post & Hrest).
  rewrite string_app_empty_r in Hrest.
  rewrite Hrest. apply decide_False. by intros [_ ?].
Qed.

Lemma startMachineMatch_bad (id : string) :
  all_id_chars id = false →
  startMachineMatch ("/machine/" +:+ id +:+ "/start") = None.
Proof.
  intros Hbad. unfold startMachineMatch. rewrite strip_prefix_app.
  destruct (span_id_bad id "/start" Hbad) as (c & post & Hrest).
  rewrite Hrest. apply decide_False. intros [_ Heq].
  apply (f_equal String.length) in Heq. simpl in Heq.
  rewrite string_length_app in Heq. simpl in Heq. lia.
Qed.

Lemma start_path_not_request (id : string) :
  "/machine/" +:+ id +:+ "/start" ≠ "/machine/request".
Proof.
  change "/machine/request" with ("/machine/" +:+ "request").
  intros Heq%(inj (String.app "/machine/")).
  pose proof (f_equal String.length Heq) as Hlen.
  rewrite string_length_app in Hlen. simpl in Hlen.
  destruct id as [|c [|c' id]]; simpl in Hlen; [done| |lia].
  simpl in Heq. by injection Heq.
Qed.

(** C10: an authenticated [GET /machine/{id}] or [POST /machine/{id}/start]
    whose id segment has a character outside [[a-zA-Z0-9-]] matches no
    route: [handle] returns the internal-error fallback, not not-found, and
    makes no call on the cache or the table (nor on the controller): the
    only collaborator call is the token validation. *)
Theorem handle_id_outside_class env request w id :
  validateToken env (token request) = true →
  all_id_chars id = false →
  (method request = "GET" ∧ path request = "/machine/" +:+ id)
  ∨ (method request = "POST" ∧ path request = "/machine/" +:+ id +:+ "/start") →
  handle env request w =
    (Returned {| statusCode := INTERNAL_SERVER_ERROR; machine := machine_null |},
     {| table := table w; cache := cache w;
        trace := trace w ++ [IdpValidateToken (token request)] |}).
Proof.
  intros Hacc Hbad Hroute. rewrite handle_authorized by done. cbv zeta.
  unfold when_method.
  destruct Hroute as [[-> ->]|[-> ->]].
  - rewrite decide_False by (by intros [? _]).
    rewrite decide_True by done. rewrite getMachineMatch_bad by done.
    by rewrite decide_False.
  - rewrite decide_False by (intros [_ ?]; by eapply start_path_not_request).
    rewrite decide_False by done.
    rewrite decide_True by done. by rewrite startMachineMatch_bad.
Qed.


(** ** Invariants of the workflow *)

(** The hypotheses of the properties above are invariants: a table with
    unique ids and a coherent cache stay so under every request. *)

Lemma cache_coherent_same w w' :
  table w' = table w → cache w' = cache w → cache_coherent w → cache_coherent w'.
Proof. unfold cache_coherent. by intros -> ->. Qed.

Lemma cache_coherent_empty t tr :
  cache_coherent {| table := t; cache := ∅; trace := tr |}.
Proof. intros id d. unfold cache_get. simpl. by rewrite lookup_empty. Qed.

Lemma set_status_keeps_id st d : machineId (set_status st d) = machineId d.
Proof. done. Qed.

Lemma set_currentJobId_keeps_id job d : machineId (set_currentJobId job d) = machineId d.
Proof. done. Qed.

Lemma table_update_keeps_stored f id id' (t : MachineStateTable) :
  (∀ d, machineId (f d) = machineId d) →
  is_Some (table_getMachine t id') →
  is_Some (table_getMachine (table_update f id t) id').
Proof.
  intros Hf [d Hd]. rewrite table_getMachine_update by done.
  rewrite Hd. case_decide; by eexists.
Qed.

(** Writing the record read back from a table that keeps every stored id
    keeps the cache coherent. *)
Lemma cache_coherent_put w t' id tr :
  (∀ id', is_Some (table_getMachine (table w) id') → is_Some (table_getMachine t' id')) →
  cache_coherent w →
  cache_coherent {| table := t'; cache := <[id := table_getMachine t' id]> (cache w);
                    trace := tr |}.
Proof.
  intros Hkeeps Hcoh id' d. simpl.
  destruct (decide (id = id')) as [->|Hne].
  - rewrite cache_get_insert. intros ->. by eexists.
  - rewrite cache_get_insert_ne by done. intros Hc. eapply Hkeeps, Hcoh, Hc.
Qed.

Lemma handleRequestMachine_invariants loc job w :
  table_wf (table w) → cache_coherent w →
  table_wf (table (handleRequestMachine loc job w).2)
  ∧ cache_coherent (handleRequestMachine loc job w).2.
Proof.
  intros Hwf Hcoh. rewrite handleRequestMachine_run. cbv zeta.
  destruct (table_listMachinesAtLocation (table w) loc) as [|x l];
    [by split; [|eapply cache_coherent_same]|].
  destruct (first_available (x :: l)) as [first|];
    [|by split; [|eapply cache_coherent_same]].
  simpl. split.
  - by do 2 (apply table_update_wf; [done|]).
  - apply cache_coherent_put; [|done].
    intros id' Hid'. by do 2 (apply table_update_keeps_stored; [done|]).
Qed.

Lemma handleGetMachine_invariants id w :
  table_wf (table w) → cache_coherent w →
  table_wf (table (handleGetMachine id w).2)
  ∧ cache_coherent (handleGetMachine id w).2.
Proof.
  intros Hwf Hcoh. rewrite handleGetMachine_run.
  destruct (cache_get (cache w) id) as [c|];
    [by split; [|eapply cache_coherent_same]|].
  destruct (table_getMachine (table w) id) as [s|] eqn:Hs;
    [|by split; [|eapply cache_coherent_same]].
  simpl. split; [done|]. rewrite <- Hs. by apply cache_coherent_put.
Qed.

Lemma handleStartMachine_invariants env id w :
  table_wf (table w) → cache_coherent w →
  table_wf (table (handleStartMachine env id w).2)
  ∧ cache_coherent (handleStartMachine env id w).2.
Proof.
  intros Hwf Hcoh. rewrite handleStartMachine_run. cbv zeta.
  destruct (resolved_snapshot w id) as [snapshot|];
    [|by split; [|eapply cache_coherent_same]].
  case_decide; [|by split; [|eapply cache_coherent_same]].
  destruct (startCycle_returns env id);
    [|by split; [|eapply cache_coherent_same]].
  simpl. split.
  - by apply table_update_wf.
  - apply cache_coherent_put; [|done].
    intros id' Hid'. by apply table_update_keeps_stored.
Qed.

Lemma handle_invariants env request w :
  table_wf (table w) → cache_coherent w →
  table_wf (table (handle env request w).2)
  ∧ cache_coherent (handle env request w).2.
Proof.
  intros Hwf Hcoh.
  assert (cache_coherent (log (IdpValidateToken (token request)) w)) as Hcoh'
    by by eapply cache_coherent_same.
  destruct (validateToken env (token request)) eqn:Htok.
  - rewrite handle_authorized by done. cbv zeta.
    case_decide; [by apply handleRequestMachine_invariants|].
    destruct (when_method "GET" request _);
      [by apply handleGetMachine_invariants|].
    destruct (when_method "POST" request _);
      [by apply handleStartMachine_invariants|done].
  - unfold handle, checkToken, bind, idp_validateToken. by rewrite Htok.
Qed.

(** ** The scenario of the specification, and the properties at work on it *)

Example scenario_reserve :
  (handle env0 reserve_request world0).1
    = Returned {| statusCode := OK; machine := machine_doc m1_reserved |}
  ∧ table world1 = [m1_reserved; m2].
Proof. by vm_compute. Qed.

Example scenario_get :
  handle env0 get_request world1
    = (Returned {| statusCode := OK; machine := machine_doc m1_reserved |},
       {| table := table world1; cache := cache world1;
          trace := trace world1 ++ [IdpValidateToken "secret"; CacheGet "m1"] |}).
Proof. by vm_compute. Qed.

Example scenario_start :
  (handle env0 start_request world1).1
    = Returned {| statusCode := OK; machine := machine_doc m1_running |}
  ∧ table world2 = [m1_running; m2]
  ∧ controller_calls (trace world2) = ["m1"].
Proof. by vm_compute. Qed.

Example scenario_start_again :
  (handle env0 start_request world2).1
    = Returned {| statusCode := BAD_REQUEST; machine := machine_undefined |}.
Proof. by vm_compute. Qed.

Lemma world0_wf : table_wf (table world0).
Proof. compute_done. Qed.

Lemma world1_coherent : cache_coherent world1.
Proof.
  apply handle_invariants; [apply world0_wf|apply cache_coherent_empty].
Qed.

Lemma world2_coherent : cache_coherent world2.
Proof.
  apply handle_invariants; [|apply world1_coherent].
  apply handle_invariants; [apply world0_wf|apply cache_coherent_empty].
Qed.

Lemma reserve_first_available_witness :
  handleRequestMachine "loc-1" "j1" world0 =
    (Returned {| statusCode := OK; machine := machine_doc m1_reserved |},
     {| table := [m1_reserved; m2];
        cache := <["m1" := Some m1_reserved]> ∅;
        trace := [TableListMachinesAtLocation "loc-1";
                  TableUpdateMachineStatus "m1" AWAITING_DROPOFF;
                  TableUpdateMachineJobId "m1" "j1";
                  TableGetMachine "m1";
                  CachePut "m1" (Some m1_reserved)] |}).
Proof.
  destruct (reserve_first_available world0 "loc-1" "j1" m1)
    as (first & Hfirst & _ & Hrun).
  - compute_done.
  - compute_done.
  - reflexivity.
  - vm_compute in Hfirst. injection Hfirst as <-. exact Hrun.
Defined.

Lemma reserve_not_found_or_bad_request_witness :
  handleRequestMachine "loc-9" "j1" world0 =
    (Returned {| statusCode := NOT_FOUND; machine := machine_undefined |},
     {| table := [m1; m2]; cache := ∅;
        trace := [TableListMachinesAtLocation "loc-9"] |})
  ∧ handleRequestMachine "loc-2" "j1" world_busy =
    (Returned {| statusCode := BAD_REQUEST; machine := machine_undefined |},
     {| table := table world_busy; cache := ∅;
        trace := [TableListMachinesAtLocation "loc-2"] |}).
Proof.
  split.
  - apply (proj1 (reserve_not_found_or_bad_request world0 "loc-9" "j1")).
    reflexivity.
  - apply (proj2 (reserve_not_found_or_bad_request world_busy "loc-2" "j1")).
    + discriminate.
    + intros m Hm. vm_compute in Hm.
      apply list_elem_of_singleton in Hm. by rewrite Hm.
Defined.

Lemma reserve_changes_one_record_witness :
  table (handleRequestMachine "loc-1" "j1" world0).2 = [m1_reserved; m2]
  ∧ table_getMachine (table (handleRequestMachine "loc-1" "j1" world0).2) "m2" = Some m2.
Proof.
  destruct (reserve_changes_one_record world0 "loc-1" "j1"
              {| statusCode := OK; machine := machine_doc m1_reserved |})
    as (first & l1 & l2 & Hfirst & _ & _ & _ & _ & _ & Hothers).
  - compute_done.
  - reflexivity.
  - reflexivity.
  - vm_compute in Hfirst. injection Hfirst as <-.
    split; [reflexivity|]. exact (Hothers "m2" ltac:(discriminate)).
Defined.

Lemma get_cache_aside_witness :
  handleGetMachine "m1" world1 =
    (Returned {| statusCode := OK; machine := machine_doc m1_reserved |},
     {| table := table world1; cache := cache world1;
        trace := trace world1 ++ [CacheGet "m1"] |})
  ∧ handleGetMachine "m9" world0 =
    (Returned {| statusCode := NOT_FOUND; machine := machine_undefined |},
     {| table := [m1; m2]; cache := ∅;
        trace := [CacheGet "m9"; TableGetMachine "m9"] |})
  ∧ handleGetMachine "m2" world0 =
    (Returned {| statusCode := OK; machine := machine_doc m2 |},
     {| table := [m1; m2]; cache := <["m2" := Some m2]> ∅;
        trace := [CacheGet "m2"; TableGetMachine "m2"; CachePut "m2" (Some m2)] |}).
Proof.
  split_and!.
  - destruct (get_cache_aside world1 "m1") as (Hhit & _ & _).
    apply (Hhit m1_reserved). reflexivity.
  - destruct (get_cache_aside world0 "m9") as (_ & Habsent & _).
    apply Habsent; reflexivity.
  - destruct (get_cache_aside world0 "m2") as (_ & _ & Hmiss).
    apply (Hmiss m2); reflexivity.
Defined.

(** C8 as stated fails for an id that neither the cache nor the table
    knows: the first get returns not-found and caches nothing, so the
    second get reads the table again. *)
Lemma second_get_of_unknown_id_reads_store :
  handleGetMachine "m9" world0 =
    (Returned {| statusCode := NOT_FOUND; machine := machine_undefined |},
     {| table := [m1; m2]; cache := ∅;
        trace := [CacheGet "m9"; TableGetMachine "m9"] |})
  ∧ trace (handleGetMachine "m9" (handleGetMachine "m9" world0).2).2
    = [CacheGet "m9"; TableGetMachine "m9"; CacheGet "m9"; TableGetMachine "m9"]
  ∧ ¬ second_get_reads_no_store world0 "m9".
Proof.
  split_and!; [reflexivity|reflexivity|].
  intros Hclaim. vm_compute in Hclaim. discriminate.
Qed.

Lemma get_twice_witness :
  (handleGetMachine "m1" (handleGetMachine "m1" world0).2).2 =
    {| table := [m1; m2]; cache := <["m1" := Some m1]> ∅;
       trace := [CacheGet "m1"; TableGetMachine "m1"; CachePut "m1" (Some m1);
                 CacheGet "m1"] |}.
Proof.
  pose proof (get_twice world0 "m1") as Htwice. cbv zeta in Htwice.
  destruct Htwice as (_ & _ & _ & Hfound & _).
  destruct (Hfound m1 eq_refl) as (_ & _ & Hsecond). exact Hsecond.
Defined.

Lemma start_wrong_status_witness :
  handleStartMachine env0 "m1" world2 =
    (Returned {| statusCode := BAD_REQUEST; machine := machine_undefined |},
     {| table := table world2; cache := cache world2;
        trace := trace world2 ++ [CacheGet "m1"] |})
  ∧ controller_calls (trace (handleStartMachine env0 "m1" world2).2) = ["m1"].
Proof.
  apply (start_wrong_status env0 world2 "m1" m1_running);
    [reflexivity|discriminate].
Defined.

Lemma start_awaiting_dropoff_witness :
  handleStartMachine env0 "m1" world1 =
    (Returned {| statusCode := OK; machine := machine_doc m1_running |},
     {| table := [m1_running; m2];
        cache := <["m1" := Some m1_running]> (cache world1);
        trace := trace world1
                 ++ [CacheGet "m1"; SmartMachineStartCycle "m1";
                     TableUpdateMachineStatus "m1" RUNNING;
                     TableGetMachine "m1"; CachePut "m1" (Some m1_running)] |}).
Proof.
  destruct (start_awaiting_dropoff env0 world1 "m1" m1_reserved)
    as (stored & Hstored & _ & Hrun).
  - exact world1_coherent.
  - reflexivity.
  - reflexivity.
  - vm_compute in Hstored. injection Hstored as <-.
    destruct (Hrun eq_refl) as (_ & Hok & _). exact Hok.
Defined.

(** C4 as stated fails on a start request for an [AVAILABLE] machine that
    is not cached: the record is fetched from the table, the status check
    gives bad-request, and the cache is still empty afterwards. *)
Lemma start_cache_miss_not_populated :
  handleStartMachine env0 "m1" world0 =
    (Returned {| statusCode := BAD_REQUEST; machine := machine_undefined |},
     {| table := [m1; m2]; cache := ∅;
        trace := [CacheGet "m1"; TableGetMachine "m1"] |})
  ∧ ¬ start_populates_cache_on_miss env0 world0 "m1".
Proof.
  split; [reflexivity|].
  intros Hclaim.
  pose proof (Hclaim m1 eq_refl eq_refl ltac:(discriminate)) as Hpopulated.
  vm_compute in Hpopulated. discriminate.
Qed.

Lemma start_resolves_without_populating_witness :
  handleStartMachine env0 "m1" world0 =
    (Returned {| statusCode := BAD_REQUEST; machine := machine_undefined |},
     {| table := [m1; m2]; cache := ∅;
        trace := [CacheGet "m1"; TableGetMachine "m1"] |})
  ∧ handleStartMachine env_down "m1"
      {| table := [m1_reserved; m2]; cache := ∅; trace := [] |} =
    (Threw (ControllerFailure "m1"),
     {| table := [m1_reserved; m2]; cache := ∅;
        trace := [CacheGet "m1"; TableGetMachine "m1";
                  SmartMachineStartCycle "m1"] |})
  ∧ handleStartMachine env0 "m1"
      {| table := [m1_reserved; m2]; cache := ∅; trace := [] |} =
    (Returned {| statusCode := OK; machine := machine_doc m1_running |},
     {| table := [m1_running; m2]; cache := <["m1" := Some m1_running]> ∅;
        trace := [CacheGet "m1"; TableGetMachine "m1";
                  SmartMachineStartCycle "m1";
                  TableUpdateMachineStatus "m1" RUNNING;
                  TableGetMachine "m1"; CachePut "m1" (Some m1_running)] |}).
Proof.
  split_and!.
  - destruct (start_resolves_without_populating env0 world0 "m1")
      as (_ & _ & Hwrong & _).
    apply (Hwrong m1); [reflexivity|reflexivity|discriminate].
  - destruct (start_resolves_without_populating env_down
                {| table := [m1_reserved; m2]; cache := ∅; trace := [] |} "m1")
      as (_ & _ & _ & Hfails & _).
    apply (Hfails m1_reserved); reflexivity.
  - destruct (start_resolves_without_populating env0
                {| table := [m1_reserved; m2]; cache := ∅; trace := [] |} "m1")
      as (_ & _ & _ & _ & Hreturns & _).
    destruct (Hreturns m1_reserved) as [_ Hrun]; [reflexivity..|].
    exact Hrun.
Defined.

Lemma handle_unauthorized_witness :
  handle env0 (request0 "POST" "/machine/m1/start" "wrong") world1 =
    (Threw (ThrownResponse UNAUTHORIZED unauthorized_message),
     {| table := table world1; cache := cache world1;
        trace := trace world1 ++ [IdpValidateToken "wrong"] |}).
Proof.
  apply (handle_unauthorized env0 (request0 "POST" "/machine/m1/start" "wrong") world1).
  reflexivity.
Defined.

Lemma handle_id_outside_class_witness :
  handle env0 (request0 "GET" "/machine/m_1" "secret") world0 =
    (Returned {| statusCode := INTERNAL_SERVER_ERROR; machine := machine_null |},
     {| table := [m1; m2]; cache := ∅; trace := [IdpValidateToken "secret"] |})
  ∧ handle env0 (request0 "POST" "/machine/m.1/start" "secret") world0 =
    (Returned {| statusCode := INTERNAL_SERVER_ERROR; machine := machine_null |},
     {| table := [m1; m2]; cache := ∅; trace := [IdpValidateToken "secret"] |}).
Proof.
  split.
  - apply (handle_id_outside_class env0 (request0 "GET" "/machine/m_1" "secret")
             world0 "m_1"); [reflexivity|reflexivity|].
    left. split; reflexivity.
  - apply (handle_id_outside_class env0 (request0 "POST" "/machine/m.1/start" "secret")
             world0 "m.1"); [reflexivity|reflexivity|].
    right. split; reflexivity.
Defined.

(** * Further properties of the handler *)

(** ** The route patterns *)

Lemma strip_prefix_Some (p s rest : string) :
  strip_prefix p s = Some rest → s = p +:+ rest.
Proof.
  revert s. induction p as [|a p IH]; intros s; simpl.
  - by intros [= ->].
  - destruct s as [|b s]; [done|].
    case_decide as Hab; [|done]. subst b. intros Hrest.
    rewrite string_app_cons. f_equal. by apply IH.
Qed.

Lemma span_id_app (s : string) : (span_id s).1 +:+ (span_id s).2 = s.
Proof.
  induction s as [|c s IH]; [done|]. simpl.
  destruct (is_id_char c); simpl; [|done].
  by rewrite string_app_cons, IH.
Qed.

Lemma span_id_all (s : string) : all_id_chars (span_id s).1 = true.
Proof.
  induction s as [|c s IH]; [done|]. simpl.
  destruct (is_id_char c) eqn:Hc; simpl; [|done]. by rewrite Hc, IH.
Qed.

(** A run of id characters followed by nothing, or by a character outside
    the class, is taken whole. *)
Lemma span_id_run (id tail : string) :
  all_id_chars id = true → (span_id tail).1 = EmptyString →
  span_id (id +:+ tail) = (id, tail).
Proof.
  intros Hid Htail. induction id as [|c id IH].
  - change ("" +:+ tail) with tail.
    pose proof (span_id_app tail) as Happ. rewrite Htail in Happ.
    change ((span_id tail).2 = tail) in Happ.
    destruct (span_id tail) as [a b]. simpl in *. by subst.
  - simpl in Hid. apply andb_true_iff in Hid as [Hc Hid].
    rewrite string_app_cons. simpl. rewrite Hc, (IH Hid). done.
Qed.

Lemma getMachineMatch_sound (path id : string) :
  getMachineMatch path = Some id → valid_id id ∧ path = "/machine/" +:+ id.
Proof.
  unfold getMachineMatch, valid_id.
  destruct (strip_prefix "/machine/" path) as [rest|] eqn:Hstrip; [|done].
  apply strip_prefix_Some in Hstrip.
  case_decide as Hm; [|done]. destruct Hm as [Hne Hend]. intros [= <-].
  pose proof (span_id_app rest) as Happ.
  rewrite Hend, string_app_empty_r in Happ.
  split_and!; [done|apply span_id_all|by rewrite Happ].
Qed.

Lemma getMachineMatch_complete (id : string) :
  valid_id id → getMachineMatch ("/machine/" +:+ id) = Some id.
Proof.
  intros [Hne Hall]. unfold getMachineMatch. rewrite strip_prefix_app.
  pose proof (span_id_run id "" Hall eq_refl) as Hrun.
  rewrite string_app_empty_r in Hrun. rewrite Hrun. simpl.
  by rewrite decide_True.
Qed.

Lemma startMachineMatch_sound (path id : string) :
  startMachineMatch path = Some id
  → valid_id id ∧ path = "/machine/" +:+ id +:+ "/start".
Proof.
  unfold startMachineMatch, valid_id.
  destruct (strip_prefix "/machine/" path) as [rest|] eqn:Hstrip; [|done].
  apply strip_prefix_Some in Hstrip.
  case_decide as Hm; [|done]. destruct Hm as [Hne Hend]. intros [= <-].
  pose proof (span_id_app rest) as Happ. rewrite Hend in Happ.
  split_and!; [done|apply span_id_all|by rewrite Happ].
Qed.

Lemma startMachineMatch_complete (id : string) :
  valid_id id → startMachineMatch ("/machine/" +:+ id +:+ "/start") = Some id.
Proof.
  intros [Hne Hall]. unfold startMachineMatch. rewrite strip_prefix_app.
  rewrite (span_id_run id "/start" Hall eq_refl). simpl.
  by rewrite decide_True.
Qed.

(** X1: the pattern of the get route accepts exactly the paths
    [/machine/{id}] whose id is a non-empty run of [[a-zA-Z0-9-]], and
    captures that id. *)
Theorem getMachineMatch_spec (path id : string) :
  getMachineMatch path = Some id ↔ valid_id id ∧ path = "/machine/" +:+ id.
Proof.
  split; [apply getMachineMatch_sound|].
  intros [Hid ->]. by apply getMachineMatch_complete.
Qed.

(** X2: the pattern of the start route accepts exactly the paths
    [/machine/{id}/start] whose id is a non-empty run of [[a-zA-Z0-9-]],
    and captures that id. *)
Theorem startMachineMatch_spec (path id : string) :
  startMachineMatch path = Some id
  ↔ valid_id id ∧ path = "/machine/" +:+ id +:+ "/start".
Proof.
  split; [apply startMachineMatch_sound|].
  intros [Hid ->]. by apply startMachineMatch_complete.
Qed.

(** ** The dispatcher *)

Lemma handle_run env request w :
  handle env request w =
    (let dispatched := {| table := table w; cache := cache w;
                          trace := trace w ++ [IdpValidateToken (token request)] |} in
     if validateToken env (token request) then
       if decide (method request = "POST" ∧ path request = "/machine/request") then
         handleRequestMachine (request_locationId request) (request_jobId request)
           dispatched
       else
         match when_method "GET" request (getMachineMatch (path request)) with
         | Some id => handleGetMachine id dispatched
         | None =>
             match when_method "POST" request (startMachineMatch (path request)) with
             | Some id => handleStartMachine env id dispatched
             | None =>
                 (Returned {| statusCode := INTERNAL_SERVER_ERROR;
                              machine := machine_null |}, dispatched)
             end
         end
     else (Threw (ThrownResponse UNAUTHORIZED unauthorized_message), dispatched)).
Proof.
  destruct (validateToken env (token request)) eqn:Htok.
  - by rewrite handle_authorized.
  - unfold handle, checkToken, bind, idp_validateToken. by rewrite Htok.
Qed.

(** X3: an authenticated request is dispatched on method and path alone:
    [POST /machine/request] runs the reserve handler on the location and
    job of the body, [GET /machine/{id}] the get handler on the id, and
    [POST /machine/{id}/start] the start handler on the id, for every id
    made of one or more characters of the class (the id [request]
    included); the handler runs on the world as the validation left it. *)
Theorem handle_dispatch env request w :
  validateToken env (token request) = true →
  let dispatched := {| table := table w; cache := cache w;
                       trace := trace w ++ [IdpValidateToken (token request)] |} in
  (method request = "POST" → path request = "/machine/request" →
     handle env request w =
       handleRequestMachine (request_locationId request) (request_jobId request)
         dispatched)
  ∧ (∀ id, method request = "GET" → valid_id id →
       path request = "/machine/" +:+ id →
       handle env request w = handleGetMachine id dispatched)
  ∧ (∀ id, method request = "POST" → valid_id id →
       path request = "/machine/" +:+ id +:+ "/start" →
       handle env request w = handleStartMachine env id dispatched).
Proof.
  intros Hacc dispatched. rewrite handle_run, Hacc. cbv zeta.
  fold dispatched. unfold when_method. split_and!.
  - intros Hm Hp. by rewrite decide_True.
  - intros id Hm Hid Hp. rewrite Hm, Hp.
    rewrite decide_False by (by intros [? _]).
    rewrite decide_True by done. by rewrite getMachineMatch_complete.
  - intros id Hm Hid Hp. rewrite Hm, Hp.
    rewrite decide_False by (intros [_ ?]; by eapply start_path_not_request).
    rewrite decide_False by done. rewrite decide_True by done.
    by rewrite startMachineMatch_complete.
Qed.

(** What each operation answers and which calls it makes. *)

Lemma handleRequestMachine_response loc job w :
  ∃ resp, (handleRequestMachine loc job w).1 = Returned resp ∧ operation_response resp.
Proof.
  rewrite handleRequestMachine_run. cbv zeta. unfold operation_response.
  destruct (table_listMachinesAtLocation (table w) loc) as [|x l];
    [eexists; split; [done|]; simpl; by eauto|].
  destruct (first_available (x :: l)) as [first|];
    [|eexists; split; [done|]; simpl; by eauto].
  eexists; split; [done|]. left. simpl. split; [done|].
  by destruct (table_getMachine _ _).
Qed.

Lemma handleGetMachine_response id w :
  ∃ resp, (handleGetMachine id w).1 = Returned resp ∧ operation_response resp.
Proof.
  rewrite handleGetMachine_run. unfold operation_response.
  destruct (cache_get (cache w) id) as [c|];
    [eexists; split; [done|]; simpl; by eauto|].
  destruct (table_getMachine (table w) id) as [s|];
    eexists; (split; [done|]); simpl; by eauto.
Qed.

Lemma handleStartMachine_response env id w :
  (∃ resp, (handleStartMachine env id w).1 = Returned resp ∧ operation_response resp)
  ∨ ((handleStartMachine env id w).1 = Threw (ControllerFailure id)
     ∧ startCycle_returns env id = false).
Proof.
  rewrite handleStartMachine_run. cbv zeta. unfold operation_response.
  destruct (resolved_snapshot w id) as [snapshot|];
    [|left; eexists; split; [done|]; simpl; by eauto].
  case_decide; [|left; eexists; split; [done|]; simpl; by eauto].
  destruct (startCycle_returns env id); [|by right].
  left. eexists; split; [done|]. left. simpl. split; [done|].
  by destruct (table_getMachine _ _).
Qed.

Lemma handleRequestMachine_trace loc job w :
  ∃ events, trace (handleRequestMachine loc job w).2 = trace w ++ events
            ∧ List.filter is_validation events = []
            ∧ controller_calls events = [].
Proof.
  rewrite handleRequestMachine_run. cbv zeta.
  destruct (table_listMachinesAtLocation (table w) loc) as [|x l];
    [by eexists|].
  destruct (first_available (x :: l)) as [first|]; by eexists.
Qed.

Lemma handleGetMachine_trace id w :
  ∃ events, trace (handleGetMachine id w).2 = trace w ++ events
            ∧ List.filter is_validation events = []
            ∧ controller_calls events = [].
Proof.
  rewrite handleGetMachine_run.
  destruct (cache_get (cache w) id) as [c|]; [by eexists|].
  destruct (table_getMachine (table w) id) as [s|]; by eexists.
Qed.

Lemma handleStartMachine_trace env id w :
  ∃ events, trace (handleStartMachine env id w).2 = trace w ++ events
            ∧ List.filter is_validation events = []
            ∧ (controller_calls events = []
               ∨ (controller_calls events = [id]
                  ∧ ∃ snapshot, resolved_snapshot w id = Some snapshot
                                ∧ status snapshot = AWAITING_DROPOFF)).
Proof.
  rewrite handleStartMachine_run. cbv zeta. unfold resolution_events.
  destruct (resolved_snapshot w id) as [snapshot|] eqn:Hres;
    [|destruct (cache_get (cache w) id); eexists; (split_and!; [done|done|by left])].
  case_decide as Hst;
    [|destruct (cache_get (cache w) id); eexists; (split_and!; [done|done|by left])].
  destruct (startCycle_returns env id), (cache_get (cache w) id);
    eexists; (split; [done|]); (split; [done|]); right;
    (split; [done|by eexists]).
Qed.

(** The five ways a request can go. *)
Lemma handle_cases env request w :
  let dispatched := {| table := table w; cache := cache w;
                       trace := trace w ++ [IdpValidateToken (token request)] |} in
  (validateToken env (token request) = false
   ∧ handle env request w
     = (Threw (ThrownResponse UNAUTHORIZED unauthorized_message), dispatched))
  ∨ (validateToken env (token request) = true ∧ routed request
     ∧ method request = "POST" ∧ path request = "/machine/request"
     ∧ handle env request w
       = handleRequestMachine (request_locationId request) (request_jobId request)
           dispatched)
  ∨ (validateToken env (token request) = true ∧ routed request
     ∧ method request = "GET"
     ∧ ∃ id, valid_id id ∧ path request = "/machine/" +:+ id
             ∧ handle env request w = handleGetMachine id dispatched)
  ∨ (validateToken env (token request) = true ∧ routed request
     ∧ method request = "POST"
     ∧ ∃ id, valid_id id ∧ path request = "/machine/" +:+ id +:+ "/start"
             ∧ handle env request w = handleStartMachine env id dispatched)
  ∨ (validateToken env (token request) = true ∧ ¬ routed request
     ∧ handle env request w
       = (Returned {| statusCode := INTERNAL_SERVER_ERROR; machine := machine_null |},
          dispatched)).
Proof.
  intros dispatched. rewrite handle_run. cbv zeta. fold dispatched.
  destruct (validateToken env (token request)); [right|by left].
  case_decide as Hreserve.
  { left. destruct Hreserve. split_and!; try done. by left. }
  right. unfold when_method.
  destruct (decide (method request = "GET")) as [Hget|Hget].
  - destruct (getMachineMatch (path request)) as [id|] eqn:Hmatch.
    + left. apply getMachineMatch_sound in Hmatch as [Hid Hpath].
      split_and!; try done; [|by exists id].
      right; left. split; [done|by exists id].
    + right. rewrite decide_False by (rewrite Hget; done).
      right. split_and!; try done.
      intros [[Hm _]|[[_ (id & Hid & Hpath)]|[Hm _]]]; try congruence.
      by rewrite Hpath, getMachineMatch_complete in Hmatch.
  - right. destruct (decide (method request = "POST")) as [Hpost|Hpost].
    + destruct (startMachineMatch (path request)) as [id|] eqn:Hmatch.
      * left. apply startMachineMatch_sound in Hmatch as [Hid Hpath].
        split_and!; try done; [|by exists id].
        right; right. split; [done|by exists id].
      * right. split_and!; try done.
        intros [Hr|[[Hm _]|[_ (id & Hid & Hpath)]]]; try done.
        by rewrite Hpath, startMachineMatch_complete in Hmatch.
    + right. split_and!; try done.
      intros [[Hm _]|[[Hm _]|[Hm _]]]; done.
Qed.

(** X4: an authenticated request gets the internal-error response exactly
    when no route takes it: the method is neither [GET] nor [POST] in
    capitals, or the path is not of the shape its method asks for (an empty
    id, a character outside the class, [GET] on a start path, [POST] on a
    bare machine path other than [/machine/request]).  None of the three
    operations answers with that code. *)
Theorem handle_fallback_iff env request w :
  validateToken env (token request) = true →
  (∃ resp, (handle env request w).1 = Returned resp
           ∧ statusCode resp = INTERNAL_SERVER_ERROR)
  ↔ ¬ routed request.
Proof.
  intros Hacc.
  assert (∀ resp, operation_response resp → statusCode resp ≠ INTERNAL_SERVER_ERROR)
    as Hop.
  { intros resp [[-> _]|[[->| ->] _]]; done. }
  destruct (handle_cases env request w)
    as [[Hrej _]|[(_ & Hr & _ & _ & Hrun)|[(_ & Hr & _ & id & _ & _ & Hrun)
       |[(_ & Hr & _ & id & _ & _ & Hrun)|(_ & Hr & Hrun)]]]];
    [congruence| | | |]; rewrite Hrun.
  - destruct (handleRequestMachine_response (request_locationId request)
                (request_jobId request)
                {| table := table w; cache := cache w;
                   trace := trace w ++ [IdpValidateToken (token request)] |})
      as (resp & Hresp & Hshape).
    split; [|done]. intros (resp' & Hresp' & H500).
    rewrite Hresp in Hresp'. injection Hresp' as <-. by apply Hop in Hshape.
  - destruct (handleGetMachine_response id
                {| table := table w; cache := cache w;
                   trace := trace w ++ [IdpValidateToken (token request)] |})
      as (resp & Hresp & Hshape).
    split; [|done]. intros (resp' & Hresp' & H500).
    rewrite Hresp in Hresp'. injection Hresp' as <-. by apply Hop in Hshape.
  - split; [|done]. intros (resp' & Hresp' & H500).
    destruct (handleStartMachine_response env id
                {| table := table w; cache := cache w;
                   trace := trace w ++ [IdpValidateToken (token request)] |})
      as [(resp & Hresp & Hshape)|[Hthrew _]].
    + rewrite Hresp in Hresp'. injection Hresp' as <-. by apply Hop in Hshape.
    + by rewrite Hthrew in Hresp'.
  - split; [done|]. intros _. by eexists.
Qed.

(** X5: what [handle] throws, kind by kind.  It throws the object with
    [UNAUTHORIZED] exactly when the identity provider rejects the token.
    It throws the failure of the machine controller for an id exactly on a
    request with an accepted token, method [POST] and path
    [/machine/{id}/start], whose resolved snapshot is [AWAITING_DROPOFF]
    and for which [startCycle] fails.  And it never throws the [TypeError]
    of reading [available_machines_at_location[0]]. *)
Theorem handle_throws env request w :
  ((handle env request w).1 = Threw (ThrownResponse UNAUTHORIZED unauthorized_message)
   ↔ validateToken env (token request) = false)
  ∧ (∀ id,
       (handle env request w).1 = Threw (ControllerFailure id)
       ↔ validateToken env (token request) = true
         ∧ method request = "POST"
         ∧ valid_id id ∧ path request = "/machine/" +:+ id +:+ "/start"
         ∧ (∃ snapshot, resolved_snapshot w id = Some snapshot
                        ∧ status snapshot = AWAITING_DROPOFF)
         ∧ startCycle_returns env id = false)
  ∧ (handle env request w).1 ≠ Threw TypeError.
Proof.
  assert (∀ id e, (handleStartMachine env id
                     {| table := table w; cache := cache w;
                        trace := trace w ++ [IdpValidateToken (token request)] |}).1
                  = Threw e
                  ↔ e = ControllerFailure id
                    ∧ (∃ snapshot, resolved_snapshot w id = Some snapshot
                                   ∧ status snapshot = AWAITING_DROPOFF)
                    ∧ startCycle_returns env id = false) as Hstart.
  { intros id e. rewrite handleStartMachine_run. cbv zeta.
    change (resolved_snapshot _ id) with (resolved_snapshot w id).
    destruct (resolved_snapshot w id) as [snapshot|];
      [|split; [done|by intros (_ & (? & ? & _) & _)]].
    case_decide as Hst.
    - destruct (startCycle_returns env id).
      + split; [done|by intros (_ & _ & ?)].
      + simpl. split.
        * intros [= <-]. split_and!; [done|by eexists|done].
        * by intros (-> & _ & _).
    - split; [done|]. intros (_ & (s & [= <-] & ?) & _). done. }
  destruct (handle_cases env request w)
    as [[Hrej Hrun]|[(Hacc & _ & _ & Hreq & Hrun)|[(Hacc & _ & Hget & id0 & _ & _ & Hrun)
       |[(Hacc & _ & Hpost & id0 & Hid0 & Hpath & Hrun)|(Hacc & Hnone & Hrun)]]]];
    rewrite Hrun.
  - rewrite Hrej. simpl. split_and!; [done| |done].
    intros id. split; [done|by intros (? & _)].
  - destruct (handleRequestMachine_response (request_locationId request)
                (request_jobId request)
                {| table := table w; cache := cache w;
                   trace := trace w ++ [IdpValidateToken (token request)] |})
      as (resp & -> & _).
    rewrite Hacc. split_and!; [done| |done].
    intros id. split; [done|]. intros (_ & _ & _ & Hpath & _).
    rewrite Hpath in Hreq. by apply start_path_not_request in Hreq.
  - destruct (handleGetMachine_response id0
                {| table := table w; cache := cache w;
                   trace := trace w ++ [IdpValidateToken (token request)] |})
      as (resp & -> & _).
    rewrite Hacc. split_and!; [done| |done].
    intros id. split; [done|]. intros (_ & Hpost & _). congruence.
  - rewrite Hacc. split_and!.
    + split; [|done]. intros Hthrew. apply Hstart in Hthrew as [? _]. done.
    + intros id. rewrite Hstart. split.
      * intros ([= <-] & Hres & Hfails). by split_and!.
      * intros (_ & _ & Hid & Hpath' & Hres & Hfails).
        assert (id = id0) as ->.
        { pose proof (startMachineMatch_complete id Hid) as Hm.
          pose proof (startMachineMatch_complete id0 Hid0) as Hm0.
          rewrite <- Hpath' in Hm. rewrite <- Hpath in Hm0. congruence. }
        by split_and!.
    + intros Hthrew. apply Hstart in Hthrew as [? _]. done.
  - rewrite Hacc. simpl. split_and!; [done| |done].
    intros id. split; [done|]. intros (_ & Hpost & Hid & Hpath & _).
    exfalso. apply Hnone. right; right. split; [done|by exists id].
Qed.

(** X6: every request validates its token exactly once, and before any
    other collaborator call: the calls a request adds to the trace begin
    with the validation of its token and hold no further validation. *)
Theorem handle_validates_first env request w :
  ∃ rest,
    trace (handle env request w).2
      = trace w ++ IdpValidateToken (token request) :: rest
    ∧ List.filter is_validation rest = [].
Proof.
  destruct (handle_cases env request w)
    as [[_ Hrun]|[(_ & _ & _ & _ & Hrun)|[(_ & _ & _ & id & _ & _ & Hrun)
       |[(_ & _ & _ & id & _ & _ & Hrun)|(_ & _ & Hrun)]]]];
    rewrite Hrun.
  - by exists [].
  - destruct (handleRequestMachine_trace (request_locationId request)
                (request_jobId request)
                {| table := table w; cache := cache w;
                   trace := trace w ++ [IdpValidateToken (token request)] |})
      as (events & -> & Hnone & _).
    exists events. simpl. by rewrite <- app_assoc.
  - destruct (handleGetMachine_trace id
                {| table := table w; cache := cache w;
                   trace := trace w ++ [IdpValidateToken (token request)] |})
      as (events & -> & Hnone & _).
    exists events. simpl. by rewrite <- app_assoc.
  - destruct (handleStartMachine_trace env id
                {| table := table w; cache := cache w;
                   trace := trace w ++ [IdpValidateToken (token request)] |})
      as (events & -> & Hnone & _).
    exists events. simpl. by rewrite <- app_assoc.
  - by exists [].
Qed.

(** X7: a request makes the controller start a machine at most once, and
    only as an authenticated [POST /machine/{id}/start] whose resolved
    snapshot is [AWAITING_DROPOFF]; the machine started is the one of the
    path.  No other request reaches the controller. *)
Theorem handle_controller_calls env request w :
  controller_calls (trace (handle env request w).2) = controller_calls (trace w)
  ∨ (validateToken env (token request) = true
     ∧ method request = "POST"
     ∧ ∃ id snapshot,
         valid_id id ∧ path request = "/machine/" +:+ id +:+ "/start"
         ∧ resolved_snapshot w id = Some snapshot
         ∧ status snapshot = AWAITING_DROPOFF
         ∧ controller_calls (trace (handle env request w).2)
           = controller_calls (trace w) ++ [id]).
Proof.
  destruct (handle_cases env request w)
    as [[_ Hrun]|[(_ & _ & _ & _ & Hrun)|[(_ & _ & _ & id & _ & _ & Hrun)
       |[(Hacc & _ & Hpost & id & Hid & Hpath & Hrun)|(_ & _ & Hrun)]]]];
    rewrite Hrun.
  - left. simpl. by rewrite controller_calls_app, app_nil_r.
  - destruct (handleRequestMachine_trace (request_locationId request)
                (request_jobId request)
                {| table := table w; cache := cache w;
                   trace := trace w ++ [IdpValidateToken (token request)] |})
      as (events & -> & _ & Hnone).
    left. simpl. by rewrite !controller_calls_app, Hnone, !app_nil_r.
  - destruct (handleGetMachine_trace id
                {| table := table w; cache := cache w;
                   trace := trace w ++ [IdpValidateToken (token request)] |})
      as (events & -> & _ & Hnone).
    left. simpl. by rewrite !controller_calls_app, Hnone, !app_nil_r.
  - destruct (handleStartMachine_trace env id
                {| table := table w; cache := cache w;
                   trace := trace w ++ [IdpValidateToken (token request)] |})
      as (events & -> & _ & [Hnone|(Hone & snapshot & Hres & Hst)]).
    + left. simpl. by rewrite !controller_calls_app, Hnone, !app_nil_r.
    + right. split_and!; try done. exists id, snapshot.
      split_and!; try done.
      simpl. by rewrite !controller_calls_app, Hone, app_nil_r.
  - left. simpl. by rewrite controller_calls_app, app_nil_r.
Qed.

(** ** The operations one after the other *)

Lemma table_getMachine_is_Some (t : MachineStateTable) d :
  d ∈ t → is_Some (table_getMachine t (machineId d)).
Proof.
  unfold table_getMachine. induction t as [|x t IH]; [by intros ?%elem_of_nil|].
  intros Hin. simpl. case_bool_decide as Hx; [by eexists|].
  apply elem_of_cons in Hin as [->|Hin]; [done|by apply IH].
Qed.

(** A reserve that answers ok, taken apart: [stored] is the record the
    table holds under the id of the machine picked from the listing. *)
Lemma handleRequestMachine_ok loc job w resp :
  (handleRequestMachine loc job w).1 = Returned resp →
  statusCode resp = OK →
  ∃ first stored,
    first_available (table_listMachinesAtLocation (table w) loc) = Some first ∧
    table_getMachine (table w) (machineId first) = Some stored ∧
    handleRequestMachine loc job w =
      (Returned {| statusCode := OK; machine := machine_doc (reserved_for job stored) |},
       {| table := table_updateMachineJobId
                     (table_updateMachineStatus (table w) (machineId first)
                        AWAITING_DROPOFF) (machineId first) job;
          cache := <[machineId first := Some (reserved_for job stored)]> (cache w);
          trace := trace w ++ [TableListMachinesAtLocation loc;
                               TableUpdateMachineStatus (machineId first) AWAITING_DROPOFF;
                               TableUpdateMachineJobId (machineId first) job;
                               TableGetMachine (machineId first);
                               CachePut (machineId first)
                                 (Some (reserved_for job stored))] |}).
Proof.
  rewrite handleRequestMachine_run. cbv zeta.
  destruct (table_listMachinesAtLocation (table w) loc) as [|x l] eqn:Hl;
    [by intros [= <-]|].
  destruct (first_available (x :: l)) as [first|] eqn:Hfirst;
    [|by intros [= <-]].
  intros _ _. exists first.
  pose proof (first_available_Some _ _ Hfirst) as [Hin _].
  rewrite <- Hl in Hin. apply listed_in_table in Hin as [Hin _].
  destruct (table_getMachine_is_Some _ _ Hin) as [stored Hstored].
  exists stored. split_and!; [done|done|].
  unfold table_updateMachineJobId, table_updateMachineStatus.
  rewrite !table_getMachine_update by done.
  rewrite !decide_True by done. by rewrite Hstored.
Qed.

Lemma operation_response_document resp d :
  operation_response resp → machine resp = machine_doc d → statusCode resp = OK.
Proof. intros [[? _]|[_ Hundef]]; [done|]. by rewrite Hundef. Qed.

(** X8: the reserve handler always returns a response (the read of the
    first available machine cannot fail), and when the response is ok it
    carries a document, whatever the table: a document in status
    [AWAITING_DROPOFF] bound to the requested job, which is also what the
    table and the cache hold under its id afterwards. *)
Theorem handleRequestMachine_returns loc job w :
  ∃ resp w',
    handleRequestMachine loc job w = (Returned resp, w') ∧
    (statusCode resp = OK →
       ∃ d, machine resp = machine_doc d
            ∧ status d = AWAITING_DROPOFF ∧ currentJobId d = Some job
            ∧ table_getMachine (table w') (machineId d) = Some d
            ∧ cache_get (cache w') (machineId d) = Some d).
Proof.
  destruct (handleRequestMachine_response loc job w) as (resp & Hresp & _).
  exists resp, (handleRequestMachine loc job w).2. split.
  { rewrite <- Hresp. by destruct (handleRequestMachine loc job w). }
  intros Hok.
  destruct (handleRequestMachine_ok _ _ _ _ Hresp Hok)
    as (first & stored & _ & Hstored & Hrun).
  apply table_getMachine_Some in Hstored as Hid. destruct Hid as [_ Hid].
  rewrite Hrun in Hresp |- *. simpl in *. injection Hresp as <-.
  exists (reserved_for job stored). simpl. rewrite Hid.
  split_and!; try done.
  - unfold table_updateMachineJobId, table_updateMachineStatus.
    rewrite !table_getMachine_update by done.
    rewrite !decide_True by done. by rewrite Hstored.
  - by rewrite cache_get_insert.
Qed.

(** X9: a get that follows a reserve which returned a document, for the
    id of that document, is answered from the cache alone with the very
    document the reserve returned. *)
Theorem reserve_then_get loc job w resp d :
  (handleRequestMachine loc job w).1 = Returned resp →
  machine resp = machine_doc d →
  let reserved := (handleRequestMachine loc job w).2 in
  handleGetMachine (machineId d) reserved =
    (Returned {| statusCode := OK; machine := machine_doc d |},
     {| table := table reserved; cache := cache reserved;
        trace := trace reserved ++ [CacheGet (machineId d)] |}).
Proof.
  intros Hresp Hdoc reserved. subst reserved.
  destruct (handleRequestMachine_response loc job w) as (resp' & Hresp' & Hshape).
  rewrite Hresp in Hresp'. injection Hresp' as <-.
  pose proof (operation_response_document _ _ Hshape Hdoc) as Hok.
  destruct (handleRequestMachine_ok _ _ _ _ Hresp Hok)
    as (first & stored & _ & Hstored & Hrun).
  apply table_getMachine_Some in Hstored as [_ Hid].
  rewrite Hrun in Hresp |- *. simpl in *. injection Hresp as <-.
  simpl in Hdoc. injection Hdoc as <-. simpl. rewrite Hid.
  rewrite handleGetMachine_run. simpl. by rewrite cache_get_insert.
Qed.

(** X10: a start that follows a reserve which returned a document, for the
    id of that document, resolves the machine from the cache without
    reading the table first, calls the controller for that id, and, when
    the controller returns, answers ok with the same document in status
    [RUNNING], which the table and the cache then hold. *)
Theorem reserve_then_start env loc job w resp d :
  (handleRequestMachine loc job w).1 = Returned resp →
  machine resp = machine_doc d →
  startCycle_returns env (machineId d) = true →
  let reserved := (handleRequestMachine loc job w).2 in
  let id := machineId d in
  let running := set_status RUNNING d in
  handleStartMachine env id reserved =
    (Returned {| statusCode := OK; machine := machine_doc running |},
     {| table := table_updateMachineStatus (table reserved) id RUNNING;
        cache := <[id := Some running]> (cache reserved);
        trace := trace reserved
                 ++ [CacheGet id; SmartMachineStartCycle id;
                     TableUpdateMachineStatus id RUNNING;
                     TableGetMachine id; CachePut id (Some running)] |})
  ∧ table_getMachine (table_updateMachineStatus (table reserved) id RUNNING) id
    = Some running.
Proof.
  intros Hresp Hdoc Hreturns reserved id running. subst reserved id running.
  destruct (handleRequestMachine_response loc job w) as (resp' & Hresp' & Hshape).
  rewrite Hresp in Hresp'. injection Hresp' as <-.
  pose proof (operation_response_document _ _ Hshape Hdoc) as Hok.
  destruct (handleRequestMachine_ok _ _ _ _ Hresp Hok)
    as (first & stored & _ & Hstored & Hrun).
  apply table_getMachine_Some in Hstored as Hid. destruct Hid as [_ Hid].
  rewrite Hrun in Hresp |- *. simpl in *. injection Hresp as <-.
  simpl in Hdoc. injection Hdoc as <-. simpl in *. rewrite Hid in *.
  assert (table_getMachine
            (table_updateMachineStatus
               (table_updateMachineJobId
                  (table_updateMachineStatus (table w) (machineId first)
                     AWAITING_DROPOFF) (machineId first) job)
               (machineId first) RUNNING) (machineId first)
          = Some (set_status RUNNING (reserved_for job stored))) as Hread.
  { unfold table_updateMachineJobId, table_updateMachineStatus.
    rewrite !table_getMachine_update by done.
    rewrite !decide_True by done. by rewrite Hstored. }
  split; [|done].
  rewrite handleStartMachine_run. unfold resolved_snapshot, resolution_events.
  simpl. rewrite cache_get_insert. simpl.
  by rewrite Hreturns, Hread.
Qed.

(** X11: two reserves in a row at one location never hand out the same
    machine: after a reserve that returned a document, the next reserve at
    that location returns bad-request (nothing left) or ok with a document
    of another machine id; it cannot return not-found. *)
Theorem reserve_twice_distinct loc job job' w resp d :
  table_wf (table w) →
  (handleRequestMachine loc job w).1 = Returned resp →
  machine resp = machine_doc d →
  ∃ resp',
    (handleRequestMachine loc job' (handleRequestMachine loc job w).2).1
      = Returned resp'
    ∧ (statusCode resp' = BAD_REQUEST
       ∨ (statusCode resp' = OK
          ∧ ∃ d', machine resp' = machine_doc d' ∧ machineId d' ≠ machineId d)).
Proof.
  intros Hwf Hresp Hdoc.
  destruct (handleRequestMachine_response loc job w) as (resp0 & Hresp0 & Hshape).
  rewrite Hresp in Hresp0. injection Hresp0 as <-.
  pose proof (operation_response_document _ _ Hshape Hdoc) as Hok.
  destruct (handleRequestMachine_ok _ _ _ _ Hresp Hok)
    as (first & stored & Hfirst & Hstored & Hrun).
  pose proof (first_available_Some _ _ Hfirst) as [Hin _].
  apply listed_in_table in Hin as [Hin Hloc].
  rewrite (table_getMachine_wf _ _ Hwf Hin) in Hstored. injection Hstored as <-.
  rewrite Hrun in Hresp |- *. simpl in Hresp. injection Hresp as <-.
  simpl in Hdoc. injection Hdoc as <-. simpl.
  set (t1 := table_updateMachineJobId _ _ _).
  assert (table_wf t1) as Hwf1.
  { subst t1. by do 2 (apply table_update_wf; [done|]). }
  assert (table_getMachine t1 (machineId first) = Some (reserved_for job first))
    as Hread by by apply reserved_read_back, table_getMachine_wf.
  rewrite handleRequestMachine_run. cbv zeta. simpl. fold t1.
  destruct (table_listMachinesAtLocation t1 loc) as [|x l] eqn:Hl.
  { exfalso. apply table_getMachine_Some in Hread as [Hin1 _].
    assert (reserved_for job first ∈ table_listMachinesAtLocation t1 loc) as Hlisted
      by (unfold table_listMachinesAtLocation; by apply list_elem_of_filter).
    rewrite Hl in Hlisted. by apply elem_of_nil in Hlisted. }
  destruct (first_available (x :: l)) as [second|] eqn:Hsecond;
    [|eexists; split; [done|by left]].
  eexists; split; [done|]. right. split; [done|]. simpl.
  pose proof (first_available_Some _ _ Hsecond) as [Hin2 Hav2].
  rewrite <- Hl in Hin2. apply listed_in_table in Hin2 as [Hin2 _].
  pose proof (table_getMachine_wf _ _ Hwf1 Hin2) as Hget2.
  rewrite (reserved_read_back t1 job' second Hget2).
  eexists; split; [done|]. simpl. intros Hsame.
  rewrite Hsame, Hread in Hget2. injection Hget2 as <-. done.
Qed.

(** X12: when the controller fails to start a machine whose resolved
    snapshot is [AWAITING_DROPOFF], the failure leaves the handler as it
    is, after the one controller call and before any write: the table and
    the cache are as they were. *)
Theorem start_controller_failure env w id snapshot :
  resolved_snapshot w id = Some snapshot →
  status snapshot = AWAITING_DROPOFF →
  startCycle_returns env id = false →
  handleStartMachine env id w =
    (Threw (ControllerFailure id),
     {| table := table w; cache := cache w;
        trace := trace w ++ resolution_events w id ++ [SmartMachineStartCycle id] |}).
Proof.
  intros Hres Hst Hfails. rewrite handleStartMachine_run, Hres. cbv zeta.
  rewrite decide_True by done. by rewrite Hfails.
Qed.

(** X13: a start that follows a start which returned a document, for the
    same id, returns bad-request from the cached [RUNNING] snapshot: the
    controller is not called a second time and nothing is written. *)
Theorem start_twice env w id resp d :
  (handleStartMachine env id w).1 = Returned resp →
  machine resp = machine_doc d →
  let started := (handleStartMachine env id w).2 in
  status d = RUNNING
  ∧ handleStartMachine env id started =
      (Returned {| statusCode := BAD_REQUEST; machine := machine_undefined |},
       {| table := table started; cache := cache started;
          trace := trace started ++ [CacheGet id] |}).
Proof.
  intros Hresp Hdoc started. subst started. revert Hresp.
  rewrite (handleStartMachine_run env id w). cbv zeta.
  destruct (resolved_snapshot w id) as [snapshot|];
    [|intros [= <-]; done].
  case_decide; [|intros [= <-]; done].
  destruct (startCycle_returns env id); [|done].
  simpl. intros [= <-]. simpl in Hdoc.
  destruct (table_getMachine (table_updateMachineStatus (table w) id RUNNING) id)
    as [updated|] eqn:Hupdated; [|done].
  simpl in Hdoc. injection Hdoc as ->.
  assert (status d = RUNNING) as Hrunning.
  { unfold table_updateMachineStatus in Hupdated.
    rewrite table_getMachine_update in Hupdated by done.
    rewrite decide_True in Hupdated by done.
    destruct (table_getMachine (table w) id); [|done].
    by injection Hupdated as <-. }
  split; [done|].
  rewrite handleStartMachine_run. unfold resolved_snapshot, resolution_events.
  simpl. rewrite cache_get_insert. simpl.
  rewrite decide_False; [done|]. by rewrite Hrunning.
Qed.

(** ** What every request keeps *)

Lemma table_update_keeps (g : MachineStateDocument → string)
    (f : MachineStateDocument → MachineStateDocument) id (t : MachineStateTable) :
  (∀ d, g (f d) = g d) → g <$> table_update f id t = g <$> t.
Proof.
  intros Hf. induction t as [|x t IH]; simpl; [done|].
  case_decide; rewrite !fmap_cons; [by rewrite Hf|by rewrite IH].
Qed.

(** X14: no request adds, removes or reorders a record of the table, and
    none changes the machine id or the location of a record: the ids and
    the locations, read in table order, are the same after any request,
    whatever its outcome. *)
Theorem handle_keeps_records env request w :
  machineId <$> table (handle env request w).2 = machineId <$> table w
  ∧ locationId <$> table (handle env request w).2 = locationId <$> table w.
Proof.
  destruct (handle_cases env request w)
    as [[_ Hrun]|[(_ & _ & _ & _ & Hrun)|[(_ & _ & _ & id & _ & _ & Hrun)
       |[(_ & _ & _ & id & _ & _ & Hrun)|(_ & _ & Hrun)]]]];
    rewrite Hrun; [done| | | |done].
  - rewrite handleRequestMachine_run. cbv zeta. simpl.
    destruct (table_listMachinesAtLocation _ _) as [|x l]; [done|].
    destruct (first_available (x :: l)) as [first|]; [|done]. simpl.
    unfold table_updateMachineJobId, table_updateMachineStatus.
    by rewrite !table_update_keeps.
  - rewrite handleGetMachine_run. simpl.
    destruct (cache_get (cache w) id); [done|].
    by destruct (table_getMachine (table w) id).
  - rewrite handleStartMachine_run. cbv zeta.
    destruct (resolved_snapshot _ id) as [snapshot|]; [|done].
    case_decide; [|done].
    destruct (startCycle_returns env id); [|done]. simpl.
    unfold table_updateMachineStatus. by rewrite !table_update_keeps.
Qed.

(** Writing the record read back under [id], into a cache that was fresh
    for a table which differs from the new one under [id] at most, leaves
    the cache fresh. *)
Lemma cache_fresh_put w t' id tr :
  (∀ id', id' ≠ id → table_getMachine t' id' = table_getMachine (table w) id') →
  cache_fresh w →
  cache_fresh {| table := t'; cache := <[id := table_getMachine t' id]> (cache w);
                 trace := tr |}.
Proof.
  intros Hsame Hfresh id' d. simpl.
  destruct (decide (id = id')) as [->|Hne].
  - by rewrite cache_get_insert.
  - rewrite cache_get_insert_ne by done. intros Hc.
    rewrite Hsame by done. by apply Hfresh.
Qed.

Lemma cache_fresh_same w w' :
  table w' = table w → cache w' = cache w → cache_fresh w → cache_fresh w'.
Proof. unfold cache_fresh. by intros -> ->. Qed.

Lemma handleRequestMachine_fresh loc job w :
  cache_fresh w → cache_fresh (handleRequestMachine loc job w).2.
Proof.
  intros Hfresh. rewrite handleRequestMachine_run. cbv zeta.
  destruct (table_listMachinesAtLocation (table w) loc) as [|x l];
    [by eapply cache_fresh_same|].
  destruct (first_available (x :: l)) as [first|];
    [|by eapply cache_fresh_same].
  simpl. apply cache_fresh_put; [|done].
  intros id' Hne. unfold table_updateMachineJobId, table_updateMachineStatus.
  rewrite !table_getMachine_update by done.
  by rewrite !decide_False by done.
Qed.

Lemma handleGetMachine_fresh id w :
  cache_fresh w → cache_fresh (handleGetMachine id w).2.
Proof.
  intros Hfresh. rewrite handleGetMachine_run.
  destruct (cache_get (cache w) id) as [c|]; [by eapply cache_fresh_same|].
  destruct (table_getMachine (table w) id) as [s|] eqn:Hs;
    [|by eapply cache_fresh_same].
  rewrite <- Hs. by apply cache_fresh_put.
Qed.

Lemma handleStartMachine_fresh env id w :
  cache_fresh w → cache_fresh (handleStartMachine env id w).2.
Proof.
  intros Hfresh. rewrite handleStartMachine_run. cbv zeta.
  destruct (resolved_snapshot w id) as [snapshot|];
    [|by eapply cache_fresh_same].
  case_decide; [|by eapply cache_fresh_same].
  destruct (startCycle_returns env id); [|by eapply cache_fresh_same].
  simpl. apply cache_fresh_put; [|done].
  intros id' Hne. unfold table_updateMachineStatus.
  rewrite table_getMachine_update by done. by rewrite decide_False.
Qed.

Lemma handle_fresh env request w :
  cache_fresh w → cache_fresh (handle env request w).2.
Proof.
  intros Hfresh.
  assert (cache_fresh {| table := table w; cache := cache w;
                         trace := trace w ++ [IdpValidateToken (token request)] |})
    as Hfresh' by by eapply cache_fresh_same.
  destruct (handle_cases env request w)
    as [[_ Hrun]|[(_ & _ & _ & _ & Hrun)|[(_ & _ & _ & id & _ & _ & Hrun)
       |[(_ & _ & _ & id & _ & _ & Hrun)|(_ & _ & Hrun)]]]];
    rewrite Hrun; [done| | | |done].
  - by apply handleRequestMachine_fresh.
  - by apply handleGetMachine_fresh.
  - by apply handleStartMachine_fresh.
Qed.

Lemma serve_fresh env requests w :
  cache_fresh w → cache_fresh (serve env requests w).
Proof.
  unfold serve. revert w.
  induction requests as [|request requests IH]; intros w Hfresh; [done|].
  simpl. by apply IH, handle_fresh.
Qed.

Lemma cache_fresh_empty t tr :
  cache_fresh {| table := t; cache := ∅; trace := tr |}.
Proof. intros id d. unfold cache_get. simpl. by rewrite lookup_empty. Qed.

(** X15: requests handled one after the other never leave a stale
    snapshot in the cache.  Starting from a fresh cache (an empty one, for
    instance), after any sequence of requests, accepted or not, every
    cached snapshot is the stored record, and a get returns the stored
    record of its id, or not-found when the table has none. *)
Theorem serve_cache_fresh env requests w :
  cache_fresh w →
  cache_fresh (serve env requests w)
  ∧ ∀ id,
      (handleGetMachine id (serve env requests w)).1 =
        Returned match table_getMachine (table (serve env requests w)) id with
                 | Some d => {| statusCode := OK; machine := machine_doc d |}
                 | None => {| statusCode := NOT_FOUND; machine := machine_undefined |}
                 end.
Proof.
  intros Hfresh. pose proof (serve_fresh env requests w Hfresh) as Hserved.
  split; [done|]. intros id. rewrite handleGetMachine_run.
  destruct (cache_get _ id) as [c|] eqn:Hc.
  - by rewrite (Hserved id c Hc).
  - by destruct (table_getMachine _ id).
Qed.

Lemma cache_fresh_coherent w : cache_fresh w → cache_coherent w.
Proof. intros Hfresh id d Hc. rewrite (Hfresh id d Hc). by eexists. Qed.

Lemma resolved_fresh w id snapshot :
  cache_fresh w → resolved_snapshot w id = Some snapshot →
  table_getMachine (table w) id = Some snapshot.
Proof.
  unfold resolved_snapshot. intros Hfresh.
  destruct (cache_get (cache w) id) as [c|] eqn:Hc; [|done].
  intros [= <-]. by apply Hfresh.
Qed.

(** What a request does to the record under an id: nothing, a
    reservation of an [AVAILABLE] record, or the start of an
    [AWAITING_DROPOFF] one. *)
Lemma handle_record_step env request w id d' :
  table_wf (table w) → cache_fresh w →
  table_getMachine (table (handle env request w).2) id = Some d' →
  ∃ d, table_getMachine (table w) id = Some d
       ∧ (d' = d
          ∨ (status d = AVAILABLE ∧ d' = reserved_for (request_jobId request) d)
          ∨ (status d = AWAITING_DROPOFF ∧ d' = set_status RUNNING d)).
Proof.
  intros Hwf Hfresh.
  destruct (handle_cases env request w)
    as [[_ Hrun]|[(_ & _ & _ & _ & Hrun)|[(_ & _ & _ & id0 & _ & _ & Hrun)
       |[(_ & _ & _ & id0 & _ & _ & Hrun)|(_ & _ & Hrun)]]]];
    rewrite Hrun; [by eauto| | | |by eauto].
  - rewrite handleRequestMachine_run. cbv zeta. simpl.
    destruct (table_listMachinesAtLocation _ _) as [|x l] eqn:Hl; [by eauto|].
    destruct (first_available (x :: l)) as [first|] eqn:Hfirst; [|by eauto].
    simpl. pose proof (first_available_Some _ _ Hfirst) as [Hin Hav].
    rewrite <- Hl in Hin. apply listed_in_table in Hin as [Hin _].
    pose proof (table_getMachine_wf _ _ Hwf Hin) as Hget.
    unfold table_updateMachineJobId, table_updateMachineStatus.
    rewrite !table_getMachine_update by done.
    destruct (decide (machineId first = id)) as [<-|Hne]; [|by eauto].
    rewrite Hget. simpl. intros [= <-]. exists first. by eauto.
  - rewrite handleGetMachine_run. simpl.
    destruct (cache_get (cache w) id0); [by eauto|].
    destruct (table_getMachine (table w) id0); by eauto.
  - rewrite handleStartMachine_run. cbv zeta.
    destruct (resolved_snapshot _ id0) as [snapshot|] eqn:Hres; [|by eauto].
    case_decide as Hst; [|by eauto].
    destruct (startCycle_returns env id0); [|by eauto]. simpl.
    apply (resolved_fresh w) in Hres; [|done].
    unfold table_updateMachineStatus.
    rewrite table_getMachine_update by done.
    destruct (decide (id0 = id)) as [<-|Hne]; [|by eauto].
    rewrite Hres. simpl. intros [= <-]. exists snapshot. by eauto.
Qed.

(** X16: in a table with unique ids and with a fresh cache, a request
    moves the status of a record only along
    [AVAILABLE -> AWAITING_DROPOFF -> RUNNING], one step at most: a record
    found under an id after the request was there before, with the same
    machine id and location, and either untouched, or [AVAILABLE] before
    and now [AWAITING_DROPOFF] with the job of the request, or
    [AWAITING_DROPOFF] before and now [RUNNING] with its job kept. *)
Theorem handle_status_transitions env request w id d' :
  table_wf (table w) → cache_fresh w →
  table_getMachine (table (handle env request w).2) id = Some d' →
  ∃ d, table_getMachine (table w) id = Some d
       ∧ machineId d' = machineId d ∧ locationId d' = locationId d
       ∧ ((status d' = status d ∧ currentJobId d' = currentJobId d)
          ∨ (status d = AVAILABLE ∧ status d' = AWAITING_DROPOFF
             ∧ currentJobId d' = Some (request_jobId request))
          ∨ (status d = AWAITING_DROPOFF ∧ status d' = RUNNING
             ∧ currentJobId d' = currentJobId d)).
Proof.
  intros Hwf Hfresh Hget.
  destruct (handle_record_step _ _ _ _ _ Hwf Hfresh Hget)
    as (d & Hd & [->|[[Hav ->]|[Haw ->]]]);
    exists d; split_and!; try done; by eauto.
Qed.

(** X17: the workflow keeps the rule that a machine has a job exactly when
    it is not [AVAILABLE]: when the rule holds of every record of a table
    with unique ids, under a fresh cache, it holds of every record after
    any request. *)
Theorem handle_keeps_job_rule env request w :
  table_wf (table w) → cache_fresh w →
  job_bound_unless_available (table w) →
  job_bound_unless_available (table (handle env request w).2).
Proof.
  intros Hwf Hfresh Hrule d' Hin'.
  destruct (handle_invariants env request w Hwf (cache_fresh_coherent _ Hfresh))
    as [Hwf' _].
  pose proof (table_getMachine_wf _ _ Hwf' Hin') as Hget'.
  destruct (handle_record_step _ _ _ _ _ Hwf Hfresh Hget')
    as (d & Hd & Hstep).
  apply table_getMachine_Some in Hd as [Hin _].
  specialize (Hrule d Hin).
  destruct Hstep as [->|[[Hav ->]|[Haw ->]]]; [done| |]; simpl.
  - split; [done|]. done.
  - split; [|done]. intros Hnone. apply Hrule in Hnone. congruence.
Qed.

Lemma handleStartMachine_ok_document env id w resp :
  cache_coherent w →
  (handleStartMachine env id w).1 = Returned resp →
  statusCode resp = OK → ∃ d, machine resp = machine_doc d.
Proof.
  intros Hcoh. rewrite handleStartMachine_run. cbv zeta.
  destruct (resolved_snapshot w id) as [snapshot|] eqn:Hres;
    [|by intros [= <-]].
  case_decide; [|by intros [= <-]].
  destruct (startCycle_returns env id); [|done].
  simpl. intros [= <-] _. simpl.
  destruct (resolved_is_stored _ _ _ Hcoh Hres) as [stored Hstored].
  rewrite (status_read_back _ _ RUNNING _ Hstored). by eexists.
Qed.

(** X18: the shape of a returned response.  [UNAUTHORIZED] is never
    returned (it is thrown); [machine] is [null] exactly with the
    internal-error code and [undefined] with bad-request and not-found;
    and, the cache being coherent, the code is ok exactly when [machine]
    is a document. *)
Theorem handle_response_shape env request w resp :
  (handle env request w).1 = Returned resp →
  statusCode resp ≠ UNAUTHORIZED
  ∧ (machine resp = machine_null ↔ statusCode resp = INTERNAL_SERVER_ERROR)
  ∧ (statusCode resp = BAD_REQUEST ∨ statusCode resp = NOT_FOUND →
     machine resp = machine_undefined)
  ∧ (cache_coherent w → (statusCode resp = OK ↔ ∃ d, machine resp = machine_doc d)).
Proof.
  assert (∀ r, operation_response r →
               (statusCode r = OK → ∃ d, machine r = machine_doc d) →
               statusCode r ≠ UNAUTHORIZED
               ∧ (machine r = machine_null ↔ statusCode r = INTERNAL_SERVER_ERROR)
               ∧ (statusCode r = BAD_REQUEST ∨ statusCode r = NOT_FOUND →
                  machine r = machine_undefined)
               ∧ (statusCode r = OK ↔ ∃ d, machine r = machine_doc d)) as Hshape.
  { intros r [[Hok Hnn]|[Hfail Hundef]] Hdoc.
    - split_and!; [congruence| |intros [?|?]; congruence|].
      + split; [done|congruence].
      + split; [done|intros _; done].
    - split_and!; [destruct Hfail; congruence| |done|].
      + split; [congruence|destruct Hfail; congruence].
      + split; [destruct Hfail; congruence|intros [d ?]; congruence]. }
  destruct (handle_cases env request w)
    as [[_ Hrun]|[(_ & _ & _ & _ & Hrun)|[(_ & _ & _ & id & _ & _ & Hrun)
       |[(_ & _ & _ & id & _ & _ & Hrun)|(_ & _ & Hrun)]]]];
    rewrite Hrun; [done| | | |].
  - intros Hresp.
    destruct (handleRequestMachine_response (request_locationId request)
                (request_jobId request)
                {| table := table w; cache := cache w;
                   trace := trace w ++ [IdpValidateToken (token request)] |})
      as (resp' & Hresp' & Hop).
    rewrite Hresp in Hresp'. injection Hresp' as <-.
    destruct (Hshape resp Hop) as (H1 & H2 & H3 & H4); [|by split_and!].
    intros Hok. destruct (handleRequestMachine_ok _ _ _ _ Hresp Hok)
      as (first & stored & _ & _ & Hrun').
    rewrite Hrun' in Hresp. injection Hresp as <-. by eexists.
  - intros Hresp.
    destruct (handleGetMachine_response id
                {| table := table w; cache := cache w;
                   trace := trace w ++ [IdpValidateToken (token request)] |})
      as (resp' & Hresp' & Hop).
    rewrite Hresp in Hresp'. injection Hresp' as <-.
    destruct (Hshape resp Hop) as (H1 & H2 & H3 & H4); [|by split_and!].
    revert Hresp. rewrite handleGetMachine_run. simpl.
    destruct (cache_get (cache w) id); [intros [= <-]; by eexists|].
    destruct (table_getMachine (table w) id); intros [= <-]; [by eexists|done].
  - intros Hresp.
    destruct (handleStartMachine_response env id
                {| table := table w; cache := cache w;
                   trace := trace w ++ [IdpValidateToken (token request)] |})
      as [(resp' & Hresp' & Hop)|[Hthrew _]]; [|by rewrite Hthrew in Hresp].
    rewrite Hresp in Hresp'. injection Hresp' as <-.
    destruct Hop as [[Hok Hnn]|[Hfail Hundef]].
    + split_and!; [congruence| |intros [?|?]; congruence|].
      * split; [done|congruence].
      * intros Hcoh. split; [|done]. intros _.
        eapply (handleStartMachine_ok_document env id); [|exact Hresp|done].
        by eapply cache_coherent_same.
    + split_and!; [destruct Hfail; congruence| |done|].
      * split; [congruence|destruct Hfail; congruence].
      * intros _. split; [destruct Hfail; congruence|intros [d ?]; congruence].
  - intros [= <-]. simpl.
    split_and!; [done|done|intros [?|?]; congruence|].
    intros _. split; [done|intros [d ?]; congruence].
Qed.

Lemma available_at_app (l1 l2 : list MachineStateDocument) loc :
  available_at (l1 ++ l2) loc = available_at l1 loc ++ available_at l2 loc.
Proof.
  unfold available_at, table_listMachinesAtLocation, MachineStateTable.
  by rewrite !filter_app.
Qed.

Lemma available_at_elem (t : list MachineStateDocument) loc d :
  d ∈ available_at t loc ↔ d ∈ t ∧ locationId d = loc ∧ status d = AVAILABLE.
Proof.
  unfold available_at, table_listMachinesAtLocation.
  rewrite !list_elem_of_filter. tauto.
Qed.

Lemma available_at_cons_in (t : list MachineStateDocument) loc d :
  locationId d = loc → status d = AVAILABLE →
  available_at (d :: t) loc = d :: available_at t loc.
Proof.
  intros Hloc Hst.
  unfold available_at, table_listMachinesAtLocation, MachineStateTable.
  rewrite filter_cons, decide_True by done.
  by rewrite filter_cons, decide_True by done.
Qed.

Lemma available_at_cons_out (t : list MachineStateDocument) loc d :
  status d ≠ AVAILABLE → available_at (d :: t) loc = available_at t loc.
Proof.
  intros Hst.
  unfold available_at, table_listMachinesAtLocation, MachineStateTable.
  rewrite filter_cons. case_decide; [|done].
  by rewrite filter_cons, decide_False by done.
Qed.

(** X20: a reserve takes exactly the head of the machines available at the
    location and leaves the others available, in the same order.  With
    unique ids: when none is available the response is not ok and the
    table is untouched; otherwise the response is ok with the head,
    reserved, and the machines available at the location afterwards are
    the tail.  A location with [n] available machines thus serves [n]
    reserves in a row and refuses the next. *)
Theorem reserve_consumes_one loc job w :
  table_wf (table w) →
  match available_at (table w) loc with
  | [] =>
      table (handleRequestMachine loc job w).2 = table w
      ∧ ∃ resp, (handleRequestMachine loc job w).1 = Returned resp
                ∧ statusCode resp ≠ OK
  | first :: rest =>
      (handleRequestMachine loc job w).1
        = Returned {| statusCode := OK; machine := machine_doc (reserved_for job first) |}
      ∧ available_at (table (handleRequestMachine loc job w).2) loc = rest
  end.
Proof.
  intros Hwf. rewrite handleRequestMachine_run. cbv zeta.
  rewrite <- head_filter_available. fold (available_at (table w) loc).
  destruct (available_at (table w) loc) as [|first rest] eqn:Hav.
  - simpl. destruct (table_listMachinesAtLocation (table w) loc);
      (split; [done|]); by eexists.
  - assert (first ∈ available_at (table w) loc) as Hhead
      by (rewrite Hav; by left).
    apply available_at_elem in Hhead as (Hin & Hloc & Hst).
    pose proof (table_getMachine_wf _ _ Hwf Hin) as Hget.
    destruct (table_getMachine_split _ _ _ Hget) as (l1 & l2 & Ht & Hl1 & _).
    assert (table_listMachinesAtLocation (table w) loc ≠ []) as Hne.
    { intros Hnil. unfold available_at in Hav. by rewrite Hnil in Hav. }
    destruct (table_listMachinesAtLocation (table w) loc) as [|x l] eqn:Hl; [done|].
    simpl. rewrite (reserved_read_back _ job _ Hget). split; [done|].
    unfold table_updateMachineJobId, table_updateMachineStatus.
    rewrite Ht in Hav |- *.
    rewrite (table_update_split _ _ l1 first l2 Hl1 eq_refl).
    rewrite (table_update_split _ _ l1 (set_status AWAITING_DROPOFF first) l2
               Hl1 eq_refl).
    rewrite available_at_app in Hav |- *.
    rewrite available_at_cons_in in Hav by done.
    rewrite available_at_cons_out by done.
    destruct (available_at l1 loc) as [|y l1'] eqn:Hl1'.
    + simpl in *. by injection Hav.
    + exfalso. injection Hav as -> _.
      apply (Hl1 first); [|done].
      apply (available_at_elem l1 loc). rewrite Hl1'. by left.
Qed.

(** X19: the two conditions the properties of the operations rest on are
    kept by any sequence of requests: the ids of the table stay unique and
    the cache stays coherent with the table. *)
Theorem serve_keeps_invariants env requests w :
  table_wf (table w) → cache_coherent w →
  table_wf (table (serve env requests w)) ∧ cache_coherent (serve env requests w).
Proof.
  unfold serve. revert w.
  induction requests as [|request requests IH]; intros w Hwf Hcoh; [done|].
  simpl. destruct (handle_invariants env request w Hwf Hcoh). by apply IH.
Qed.

(** ** The further properties on the scenario *)

Lemma world0_fresh : cache_fresh world0.
Proof. apply cache_fresh_empty. Qed.

Lemma world0_job_rule : job_bound_unless_available (table world0).
Proof.
  intros d Hd. simpl in Hd.
  apply elem_of_cons in Hd as [->|Hd]; [done|].
  apply list_elem_of_singleton in Hd as ->. done.
Qed.

Lemma handle_dispatch_witness :
  handle env0 reserve_request world0 =
    handleRequestMachine "loc-1" "j1"
      {| table := [m1; m2]; cache := ∅; trace := [IdpValidateToken "secret"] |}
  ∧ handle env0 (request0 "GET" "/machine/request" "secret") world0 =
    handleGetMachine "request"
      {| table := [m1; m2]; cache := ∅; trace := [IdpValidateToken "secret"] |}
  ∧ handle env0 start_request world0 =
    handleStartMachine env0 "m1"
      {| table := [m1; m2]; cache := ∅; trace := [IdpValidateToken "secret"] |}.
Proof.
  split_and!.
  - pose proof (handle_dispatch env0 reserve_request world0 eq_refl) as Hd.
    cbv zeta in Hd. destruct Hd as (Hreserve & _ & _).
    apply Hreserve; reflexivity.
  - pose proof (handle_dispatch env0 (request0 "GET" "/machine/request" "secret")
                  world0 eq_refl) as Hd.
    cbv zeta in Hd. destruct Hd as (_ & Hget & _).
    apply (Hget "request"); [reflexivity|by split|reflexivity].
  - pose proof (handle_dispatch env0 start_request world0 eq_refl) as Hd.
    cbv zeta in Hd. destruct Hd as (_ & _ & Hstart).
    apply (Hstart "m1"); [reflexivity|by split|reflexivity].
Defined.

Lemma handle_fallback_iff_witness :
  ∃ resp, (handle env0 (request0 "get" "/machine/m1" "secret") world0).1 = Returned resp
          ∧ statusCode resp = INTERNAL_SERVER_ERROR.
Proof.
  apply (proj2 (handle_fallback_iff env0 (request0 "get" "/machine/m1" "secret")
                  world0 eq_refl)).
  intros [[Hm _]|[[Hm _]|[Hm _]]]; discriminate.
Defined.

Lemma handle_throws_witness :
  (handle env_down start_request world1).1 = Threw (ControllerFailure "m1")
  ∧ (handle env0 (request0 "POST" "/machine/request" "wrong") world0).1
    = Threw (ThrownResponse UNAUTHORIZED unauthorized_message).
Proof.
  split.
  - destruct (handle_throws env_down start_request world1) as (_ & Hcontroller & _).
    apply (Hcontroller "m1").
    split_and!; [reflexivity|reflexivity|by split|reflexivity| |reflexivity].
    exists m1_reserved. split; reflexivity.
  - destruct (handle_throws env0 (request0 "POST" "/machine/request" "wrong") world0)
      as (Hrejected & _ & _).
    apply Hrejected. reflexivity.
Defined.

Lemma reserve_then_get_witness :
  handleGetMachine "m1" (handleRequestMachine "loc-1" "j1" world0).2 =
    (Returned {| statusCode := OK; machine := machine_doc m1_reserved |},
     {| table := [m1_reserved; m2]; cache := <["m1" := Some m1_reserved]> ∅;
        trace := [TableListMachinesAtLocation "loc-1";
                  TableUpdateMachineStatus "m1" AWAITING_DROPOFF;
                  TableUpdateMachineJobId "m1" "j1"; TableGetMachine "m1";
                  CachePut "m1" (Some m1_reserved); CacheGet "m1"] |}).
Proof.
  apply (reserve_then_get "loc-1" "j1" world0
           {| statusCode := OK; machine := machine_doc m1_reserved |} m1_reserved);
    reflexivity.
Defined.

Lemma reserve_then_start_witness :
  (handleStartMachine env0 "m1" (handleRequestMachine "loc-1" "j1" world0).2).1 =
    Returned {| statusCode := OK; machine := machine_doc m1_running |}
  ∧ table (handleStartMachine env0 "m1" (handleRequestMachine "loc-1" "j1" world0).2).2
    = [m1_running; m2].
Proof.
  pose proof (reserve_then_start env0 "loc-1" "j1" world0
                {| statusCode := OK; machine := machine_doc m1_reserved |}
                m1_reserved eq_refl eq_refl eq_refl) as Hstart.
  cbv zeta in Hstart. destruct Hstart as [Hrun _].
  change (machineId m1_reserved) with "m1" in Hrun.
  rewrite Hrun. split; reflexivity.
Defined.

Lemma reserve_twice_distinct_witness :
  ∃ resp',
    (handleRequestMachine "loc-1" "j2" (handleRequestMachine "loc-1" "j1" world0).2).1
      = Returned resp'
    ∧ (statusCode resp' = BAD_REQUEST
       ∨ (statusCode resp' = OK
          ∧ ∃ d', machine resp' = machine_doc d' ∧ machineId d' ≠ "m1")).
Proof.
  apply (reserve_twice_distinct "loc-1" "j1" "j2" world0
           {| statusCode := OK; machine := machine_doc m1_reserved |} m1_reserved).
  - compute_done.
  - reflexivity.
  - reflexivity.
Defined.

Lemma start_controller_failure_witness :
  handleStartMachine env_down "m1" world1 =
    (Threw (ControllerFailure "m1"),
     {| table := table world1; cache := cache world1;
        trace := trace world1 ++ [CacheGet "m1"; SmartMachineStartCycle "m1"] |}).
Proof.
  apply (start_controller_failure env_down world1 "m1" m1_reserved); reflexivity.
Defined.

Lemma start_twice_witness :
  handleStartMachine env0 "m1" (handleStartMachine env0 "m1" world1).2 =
    (Returned {| statusCode := BAD_REQUEST; machine := machine_undefined |},
     {| table := [m1_running; m2];
        cache := cache (handleStartMachine env0 "m1" world1).2;
        trace := trace (handleStartMachine env0 "m1" world1).2 ++ [CacheGet "m1"] |}).
Proof.
  pose proof (start_twice env0 world1 "m1"
                {| statusCode := OK; machine := machine_doc m1_running |}
                m1_running eq_refl eq_refl) as Htwice.
  cbv zeta in Htwice. destruct Htwice as [_ Hsecond]. exact Hsecond.
Defined.

Lemma serve_cache_fresh_witness :
  (handleGetMachine "m1" (serve env0 [reserve_request; start_request] world0)).1 =
    Returned {| statusCode := OK; machine := machine_doc m1_running |}.
Proof.
  destruct (serve_cache_fresh env0 [reserve_request; start_request] world0 world0_fresh)
    as [_ Hget].
  exact (Hget "m1").
Defined.

Lemma handle_status_transitions_witness :
  ∃ d, table_getMachine (table world0) "m1" = Some d
       ∧ machineId m1_reserved = machineId d ∧ locationId m1_reserved = locationId d
       ∧ ((status m1_reserved = status d ∧ currentJobId m1_reserved = currentJobId d)
          ∨ (status d = AVAILABLE ∧ status m1_reserved = AWAITING_DROPOFF
             ∧ currentJobId m1_reserved = Some "j1")
          ∨ (status d = AWAITING_DROPOFF ∧ status m1_reserved = RUNNING
             ∧ currentJobId m1_reserved = currentJobId d)).
Proof.
  apply (handle_status_transitions env0 reserve_request world0 "m1" m1_reserved).
  - compute_done.
  - exact world0_fresh.
  - reflexivity.
Defined.

Lemma handle_keeps_job_rule_witness :
  job_bound_unless_available (table world1).
Proof.
  apply (handle_keeps_job_rule env0 reserve_request world0).
  - compute_done.
  - exact world0_fresh.
  - exact world0_job_rule.
Defined.

Lemma handle_response_shape_witness :
  OK ≠ UNAUTHORIZED
  ∧ (machine_doc m1_reserved = machine_null ↔ OK = INTERNAL_SERVER_ERROR)
  ∧ (OK = BAD_REQUEST ∨ OK = NOT_FOUND → machine_doc m1_reserved = machine_undefined)
  ∧ (cache_coherent world0 → (OK = OK ↔ ∃ d, machine_doc m1_reserved = machine_doc d)).
Proof.
  apply (handle_response_shape env0 reserve_request world0
           {| statusCode := OK; machine := machine_doc m1_reserved |}).
  reflexivity.
Defined.

Lemma serve_keeps_invariants_witness :
  table_wf (table world2) ∧ cache_coherent world2.
Proof.
  apply (serve_keeps_invariants env0 [reserve_request; start_request] world0).
  - compute_done.
  - apply cache_coherent_empty.
Defined.

Lemma reserve_consumes_one_witness :
  (handleRequestMachine "loc-1" "j1" world0).1
    = Returned {| statusCode := OK; machine := machine_doc m1_reserved |}
  ∧ available_at (table (handleRequestMachine "loc-1" "j1" world0).2) "loc-1" = [m2].
Proof.
  apply (reserve_consumes_one "loc-1" "j1" world0). compute_done.
Defined.
